(** * Composite pattern (Linker.cpp): the Component / Leaf / Composite tree

    A shallow embedding of the classes of [src/Linker.cpp] over an explicit
    object store.  Objects live in a finite map from addresses to their
    contents; a [Component *] is a value of type [pointer]; member functions
    take the address of [this] and the store, and return the new store (or
    [None] where the C++ program dereferences something that is not an
    object).  The recursive [Operation] is given fuel, since nothing in the
    code prevents a cyclic structure. *)

From stdpp Require Import gmap strings list fin_maps.

(** ** Data model *)

Abbreviation loc := nat (only parsing).

(** A value of type [Component *]: the member [parent_] has no initialiser
    and the classes have no constructor, so after [new Leaf] or
    [new Composite] it holds an indeterminate value. *)
Inductive pointer :=
| indeterminate
| nullptr
| ptr (l : loc).

#[global] Instance pointer_eq_dec : EqDecision pointer.
Proof. solve_decision. Defined.

(** The two concrete classes.  Both inherit [parent_] from [Component];
    [Composite] adds [children_], a [std::list<Component *>]. *)
Inductive Component :=
| Leaf (parent_ : pointer)
| Composite (parent_ : pointer) (children_ : list pointer).

#[global] Instance Component_eq_dec : EqDecision Component.
Proof. solve_decision. Defined.

Abbreviation heap := (gmap loc Component) (only parsing).

Definition parent_ (c : Component) : pointer :=
  match c with
  | Leaf p => p
  | Composite p _ => p
  end.

(** The children of an object; a [Leaf] has no such member. *)
Definition children_ (c : Component) : list pointer :=
  match c with
  | Leaf _ => []
  | Composite _ cs => cs
  end.

(** [this->parent_ = parent] *)
Definition set_parent_ (parent : pointer) (c : Component) : Component :=
  match c with
  | Leaf _ => Leaf parent
  | Composite _ cs => Composite parent cs
  end.

(** The object a pointer refers to: dereferencing an indeterminate or null
    pointer, or an address that holds no object, is undefined. *)
Definition target (p : pointer) : option loc :=
  match p with
  | ptr l => Some l
  | _ => None
  end.

(** ** Construction *)

(** [new T] returns an address that holds no object yet. *)
Definition new (c : Component) (h : heap) : loc * heap :=
  let l := fresh (dom h) in (l, <[l := c]> h).

(** [new Leaf]: default-initialisation, [parent_] is left as it is. *)
Definition new_Leaf (h : heap) : loc * heap := new (Leaf indeterminate) h.

(** [new Composite]: [children_] is default-constructed, hence empty;
    [parent_] is left as it is. *)
Definition new_Composite (h : heap) : loc * heap :=
  new (Composite indeterminate []) h.

(** ** Member functions *)

(** [Component::SetParent] *)
Definition SetParent (this : loc) (parent : pointer) (h : heap) : option heap :=
  c ← h !! this;
  Some (<[this := set_parent_ parent c]> h).

(** [Component::GetParent] *)
Definition GetParent (this : loc) (h : heap) : option pointer :=
  parent_ <$> h !! this.

(** [IsComposite], virtual: [Component::IsComposite] for a [Leaf],
    [Composite::IsComposite] for a [Composite]. *)
Definition IsComposite (this : loc) (h : heap) : option bool :=
  c ← h !! this;
  match c with
  | Leaf _ => Some false
  | Composite _ _ => Some true
  end.

(** [component->SetParent(parent)] through a [Component *]. *)
Definition SetParent_at (component parent : pointer) (h : heap) : option heap :=
  l ← target component;
  SetParent l parent h.

(** [Add], virtual.  [Component::Add] (used by [Leaf]) has an empty body.
    [Composite::Add] does [children_.push_back(component)] and then
    [component->SetParent(this)]. *)
Definition Add (this : loc) (component : pointer) (h : heap) : option heap :=
  c ← h !! this;
  match c with
  | Leaf _ => Some h
  | Composite p cs =>
      SetParent_at component (ptr this)
        (<[this := Composite p (cs ++ [component])]> h)
  end.

(** [std::list::remove(value)]: erases every element equal to [value]. *)
Definition list_remove (value : pointer) (l : list pointer) : list pointer :=
  filter (λ x, x ≠ value) l.

(** [Remove], virtual.  [Component::Remove] has an empty body.
    [Composite::Remove] does [children_.remove(component)] and then
    [component->SetParent(nullptr)]. *)
Definition Remove (this : loc) (component : pointer) (h : heap) : option heap :=
  c ← h !! this;
  match c with
  | Leaf _ => Some h
  | Composite p cs =>
      SetParent_at component nullptr
        (<[this := Composite p (list_remove component cs)]> h)
  end.

(** [children_.back()], defined on a non-empty list only. *)
Definition back (l : list pointer) : option pointer := last l.

(** One turn of the loop of [Composite::Operation]: [c] is the loop
    variable, [s] is what [c->Operation()] returned. *)
Definition Operation_append (cs : list pointer) (c : pointer)
    (result s : string) : string :=
  if decide (Some c = back cs) then result +:+ s
  else result +:+ (s +:+ "+").

(** The range-based [for] of [Composite::Operation] over the elements
    [todo] still to visit, with the local [result]; [call] is the virtual
    call [c->Operation()] and [cs] the whole of [children_]. *)
Fixpoint Operation_for (call : loc → option string) (cs : list pointer)
    (result : string) (todo : list pointer) : option string :=
  match todo with
  | [] => Some result
  | c :: todo =>
      l ← target c;
      s ← call l;
      Operation_for call cs (Operation_append cs c result s) todo
  end.

(** [Operation], virtual.  [Leaf::Operation] returns ["Leaf"];
    [Composite::Operation] runs over [children_] in order and wraps the
    result.  [fuel] bounds the depth of nested calls. *)
Fixpoint Operation (fuel : nat) (h : heap) (this : loc) : option string :=
  match fuel with
  | 0 => None
  | S fuel =>
      match h !! this with
      | None => None
      | Some (Leaf _) => Some "Leaf"
      | Some (Composite _ cs) =>
          result ← Operation_for (Operation fuel h) cs "" cs;
          Some (("Branch(" +:+ result) +:+ ")")
      end
  end.

(** The number of times [Operation] is entered in the course of one call:
    once for the call itself and, for a composite, as often as the calls
    of its loop take. *)
Fixpoint calls_for (call : loc → option nat) (n : nat)
    (todo : list pointer) : option nat :=
  match todo with
  | [] => Some n
  | c :: todo =>
      l ← target c;
      m ← call l;
      calls_for call (n + m) todo
  end.

Fixpoint Operation_calls (fuel : nat) (h : heap) (this : loc) : option nat :=
  match fuel with
  | 0 => None
  | S fuel =>
      match h !! this with
      | None => None
      | Some (Leaf _) => Some 1
      | Some (Composite _ cs) =>
          n ← calls_for (Operation_calls fuel h) 0 cs;
          Some (S n)
      end
  end.

(** ** Programs over the interface *)

(** The calls a client can make. *)
Inductive call :=
| NewLeaf
| NewComposite
| CallAdd (this : loc) (component : pointer)
| CallRemove (this : loc) (component : pointer)
| CallSetParent (this : loc) (parent : pointer).

Definition exec (k : call) (h : heap) : option heap :=
  match k with
  | NewLeaf => Some (new_Leaf h).2
  | NewComposite => Some (new_Composite h).2
  | CallAdd this component => Add this component h
  | CallRemove this component => Remove this component h
  | CallSetParent this parent => SetParent this parent h
  end.

(** A sequence of calls, from left to right. *)
Fixpoint run (ks : list call) (h : heap) : option heap :=
  match ks with
  | [] => Some h
  | k :: ks => h' ← exec k h; run ks h'
  end.

(** The objects of [main], in the order it creates and links them:
    [simple] is 0, [tree] 1, [branch1] 2, [leaf_1] 3, [leaf_2] 4,
    [leaf_3] 5 and [branch2] 6. *)
Definition main_calls : list call :=
  [ NewLeaf; NewComposite; NewComposite; NewLeaf; NewLeaf; NewLeaf;
    CallAdd 2 (ptr 3); CallAdd 2 (ptr 4);
    NewComposite; CallAdd 6 (ptr 5);
    CallAdd 1 (ptr 2); CallAdd 1 (ptr 6) ].

(** ** The structure of a store *)

(** [p] has [x] in its child sequence. *)
Definition holds (h : heap) (p x : loc) : Prop :=
  ∃ c, h !! p = Some c ∧ ptr x ∈ children_ c.

(** [x] is a descendant of [p], directly or transitively. *)
Definition descendant (h : heap) (p x : loc) : Prop := tc (holds h) p x.

(** No node is its own descendant. *)
Definition acyclic (h : heap) : Prop := ∀ x, ¬ descendant h x x.

(** [nodes] takes in the tree under [this]: the node itself and, with
    every node, the nodes it holds. *)
Definition contains_tree (h : heap) (this : loc) (nodes : gset loc) : Prop :=
  this ∈ nodes ∧ ∀ p x, p ∈ nodes → holds h p x → x ∈ nodes.

(** No node is held twice, neither by two objects nor twice by one. *)
Definition unshared (h : heap) : Prop :=
  (∀ p q x, holds h p x → holds h q x → p = q) ∧
  (∀ p c, h !! p = Some c → NoDup (children_ c)).

(** Every entry of every child sequence is the address of an object. *)
Definition closed (h : heap) : Prop :=
  ∀ p c q, h !! p = Some c → q ∈ children_ c →
    ∃ x, q = ptr x ∧ is_Some (h !! x).

(** A way to see that a store is acyclic: every held node ranks strictly
    below its holder. *)
Definition ranked (rank : loc → nat) (h : heap) : Prop :=
  map_Forall (λ p c,
    Forall (λ q, match q with
                 | ptr x => rank x < rank p
                 | _ => True
                 end) (children_ c)) h.

#[global] Instance ranked_dec rank h : Decision (ranked rank h).
Proof.
  unfold ranked. apply map_Forall_dec. intros p c. apply Forall_dec.
  intros [| |x]; apply _.
Defined.

(** The parent invariant as the specification words it: a node held by a
    composite points back to exactly that composite, a node held by none
    has the null parent. *)
Definition spec_parent_invariant (h : heap) : Prop :=
  (∀ p x, holds h p x → GetParent x h = Some (ptr p)) ∧
  (∀ x, is_Some (h !! x) → (∀ p, ¬ holds h p x) →
        GetParent x h = Some nullptr).

(** The same without a promise about a [parent_] that was never
    assigned. *)
Definition parent_tracks_container (h : heap) : Prop :=
  (∀ p x, holds h p x → GetParent x h = Some (ptr p)) ∧
  (∀ x v, GetParent x h = Some v → (∀ p, ¬ holds h p x) →
          v ≠ indeterminate → v = nullptr).

(** No object other than [this] has [component] in its child sequence. *)
Definition free_elsewhere (h : heap) (this : loc) (component : pointer) : Prop :=
  map_Forall (λ q c, q ≠ this → component ∉ children_ c) h.

(** [parent] is the container of [x], and null when it has none. *)
Definition names_container (h : heap) (x : loc) (parent : pointer) : Prop :=
  map_Forall (λ q c, ptr x ∈ children_ c → parent = ptr q) h ∧
  (map_Forall (λ _ c, ptr x ∉ children_ c) h → parent = nullptr).

(** The calls of a client that keeps every node in at most one composite
    and never points a node at something that is not its container. *)
Definition allowed (h : heap) (k : call) : Prop :=
  match k with
  | NewLeaf | NewComposite => True
  | CallAdd this component | CallRemove this component =>
      IsComposite this h = Some true → free_elsewhere h this component
  | CallSetParent x parent => names_container h x parent
  end.

Fixpoint disciplined (ks : list call) (h : heap) : Prop :=
  match ks with
  | [] => True
  | k :: ks =>
      allowed h k ∧
      match exec k h with
      | Some h' => disciplined ks h'
      | None => True
      end
  end.

#[global] Instance free_elsewhere_dec h this component :
  Decision (free_elsewhere h this component).
Proof. unfold free_elsewhere. apply _. Defined.

#[global] Instance names_container_dec h x parent :
  Decision (names_container h x parent).
Proof. unfold names_container. apply _. Defined.

#[global] Instance allowed_dec h k : Decision (allowed h k).
Proof. destruct k; simpl; apply _. Defined.

#[global] Instance disciplined_dec ks : ∀ h, Decision (disciplined ks h).
Proof.
  induction ks as [|k ks IH]; intros h; simpl; [apply _|].
  destruct (exec k h); apply _.
Defined.

(** ** The specification's wording of two operations *)

(** The description of a composite whose children describe themselves as
    [ss]: the descriptions joined by the separator, wrapped in the branch
    delimiter. *)
Definition spec_describe (ss : list string) : string :=
  ("Branch(" +:+ String.concat "+" ss) +:+ ")".

(** Removal of the first entry equal to [value], later ones staying. *)
Fixpoint spec_remove_first (value : pointer) (l : list pointer) : list pointer :=
  match l with
  | [] => []
  | x :: l => if decide (x = value) then l else x :: spec_remove_first value l
  end.

(** ** Stores used as examples *)

(** A composite (0) to which the same leaf (1) was added twice. *)
Definition twice_calls : list call :=
  [ NewComposite; NewLeaf; CallAdd 0 (ptr 1); CallAdd 0 (ptr 1) ].

Definition twice_heap : heap :=
  <[1 := Leaf (ptr 0)]>
    (<[0 := Composite indeterminate [ptr 1; ptr 1]]> ∅).

(** Two composites (0 and 1) and a leaf (2) added to the second. *)
Definition stranger_calls : list call :=
  [ NewComposite; NewComposite; NewLeaf; CallAdd 1 (ptr 2) ].

Definition stranger_heap : heap :=
  <[2 := Leaf (ptr 1)]>
    (<[1 := Composite indeterminate [ptr 2]]>
       (<[0 := Composite indeterminate []]> ∅)).

(** Two composites (0 and 1) to both of which the leaf (2) was added. *)
Definition shared_calls : list call :=
  [ NewComposite; NewComposite; NewLeaf;
    CallAdd 0 (ptr 2); CallAdd 1 (ptr 2) ].

Definition shared_heap : heap :=
  <[2 := Leaf (ptr 1)]>
    (<[1 := Composite indeterminate [ptr 2]]>
       (<[0 := Composite indeterminate [ptr 2]]> ∅)).

(** A composite (0) added to itself. *)
Definition self_calls : list call := [ NewComposite; CallAdd 0 (ptr 0) ].

Definition self_heap : heap := <[0 := Composite (ptr 0) [ptr 0]]> ∅.

(** The store [main] has built when it prints the tree. *)
Definition main_heap : heap :=
  <[0 := Leaf indeterminate]>
    (<[1 := Composite indeterminate [ptr 2; ptr 6]]>
       (<[2 := Composite (ptr 1) [ptr 3; ptr 4]]>
          (<[3 := Leaf (ptr 2)]>
             (<[4 := Leaf (ptr 2)]>
                (<[5 := Leaf (ptr 6)]>
                   (<[6 := Composite (ptr 1) [ptr 5]]> ∅)))))).

(** The nodes of [main_heap] by height: the root, its branches, the
    leaves. *)
Definition main_rank (l : loc) : nat :=
  match l with
  | 1 => 2
  | 2 | 6 => 1
  | _ => 0
  end.

(** ** The rest of the file: destruction and the client code *)

(** What [Operation] reads of an object: its class and, for a composite,
    its child sequence. *)
Definition shape (c : Component) : option (list pointer) :=
  match c with
  | Leaf _ => None
  | Composite _ cs => Some cs
  end.

(** [delete p].  The destructors are empty ([virtual ~Component() {}], the
    implicit ones of [Leaf] and [Composite]): the object ceases to exist,
    the objects its members point to stay.  Deleting the null pointer does
    nothing; deleting anything else that is not an object is undefined. *)
Definition op_delete (p : pointer) (h : heap) : option heap :=
  match p with
  | nullptr => Some h
  | indeterminate => None
  | ptr l =>
      match h !! l with
      | Some _ => Some (delete l h)
      | None => None
      end
  end.

(** The line feed that the string literals of the source write as an
    escape. *)
Definition nl : string := String (Ascii.ascii_of_nat 10) EmptyString.

(** [ClientCode]: writes to [std::cout], whose text so far is [out]. *)
Definition ClientCode (component : pointer) (fuel : nat) (h : heap)
    (out : string) : option string :=
  l ← target component;
  s ← Operation fuel h l;
  Some ((out +:+ "RESULT: ") +:+ s).

(** [ClientCode2] *)
Definition ClientCode2 (component1 component2 : pointer) (fuel : nat)
    (h : heap) (out : string) : option (heap * string) :=
  l ← target component1;
  b ← IsComposite l h;
  h ← (if b : bool then Add l component2 h else Some h);
  s ← Operation fuel h l;
  Some (h, (out +:+ "RESULT: ") +:+ s).

(** [main], from an empty store and an empty [std::cout]; the result is
    the store and the text when it returns. *)
Definition main (fuel : nat) : option (heap * string) :=
  let '(simple, h) := new_Leaf ∅ in
  let out := "Client: I've got a simple component:" +:+ nl in
  out ← ClientCode (ptr simple) fuel h out;
  let out := out +:+ (nl +:+ nl) in
  let '(tree, h) := new_Composite h in
  let '(branch1, h) := new_Composite h in
  let '(leaf_1, h) := new_Leaf h in
  let '(leaf_2, h) := new_Leaf h in
  let '(leaf_3, h) := new_Leaf h in
  h ← Add branch1 (ptr leaf_1) h;
  h ← Add branch1 (ptr leaf_2) h;
  let '(branch2, h) := new_Composite h in
  h ← Add branch2 (ptr leaf_3) h;
  h ← Add tree (ptr branch1) h;
  h ← Add tree (ptr branch2) h;
  let out := out +:+ ("Client: Now I've got a composite tree:" +:+ nl) in
  out ← ClientCode (ptr tree) fuel h out;
  let out := out +:+ (nl +:+ nl) in
  let out :=
    out +:+ ("Client: I don't need to check the components classes even when managing the tree:" +:+ nl) in
  '(h, out) ← ClientCode2 (ptr tree) (ptr simple) fuel h out;
  let out := out +:+ nl in
  h ← op_delete (ptr simple) h;
  h ← op_delete (ptr tree) h;
  h ← op_delete (ptr branch1) h;
  h ← op_delete (ptr branch2) h;
  h ← op_delete (ptr leaf_1) h;
  h ← op_delete (ptr leaf_2) h;
  h ← op_delete (ptr leaf_3) h;
  Some (h, out).

Lemma run_twice_calls : run twice_calls ∅ = Some twice_heap.
Proof. vm_compute. reflexivity. Qed.

Lemma run_stranger_calls : run stranger_calls ∅ = Some stranger_heap.
Proof. vm_compute. reflexivity. Qed.

Lemma run_shared_calls : run shared_calls ∅ = Some shared_heap.
Proof. vm_compute. reflexivity. Qed.

Lemma run_self_calls : run self_calls ∅ = Some self_heap.
Proof. vm_compute. reflexivity. Qed.

Lemma run_main_calls : run main_calls ∅ = Some main_heap.
Proof. vm_compute. reflexivity. Qed.

(** ** Basic facts about the member functions *)

Lemma parent_set_parent_ v c : parent_ (set_parent_ v c) = v.
Proof. by destruct c. Qed.

Lemma children_set_parent_ v c : children_ (set_parent_ v c) = children_ c.
Proof. by destruct c. Qed.

(** [Composite::Add] and [Composite::Remove] share their shape: the child
    sequence of [this] is replaced, then the parent of [component] is
    written.  The lemma gives the store that results, also when
    [component] is [this] itself. *)
Lemma relink_Some (h : heap) this p cs' x cx v :
  h !! x = Some cx →
  SetParent_at (ptr x) v (<[this := Composite p cs']> h) =
    Some (<[x := if decide (x = this) then Composite v cs'
                 else set_parent_ v cx]>
            (<[this := Composite p cs']> h)).
Proof.
  intros Hx. unfold SetParent_at, SetParent. simpl.
  destruct (decide (x = this)) as [->|Hne].
  - by rewrite lookup_insert_eq.
  - rewrite lookup_insert_ne by done. by rewrite Hx.
Qed.

Lemma back_snoc cs (c : pointer) : back (cs ++ [c]) = Some c.
Proof. unfold back. apply last_snoc. Qed.

Lemma Operation_S (h : heap) fuel this :
  Operation (S fuel) h this =
    match h !! this with
    | None => None
    | Some (Leaf _) => Some "Leaf"
    | Some (Composite _ cs) =>
        result ← Operation_for (Operation fuel h) cs "" cs;
        Some (("Branch(" +:+ result) +:+ ")")
    end.
Proof. reflexivity. Qed.

(** Unrolls the loop over a child sequence that is given entry by entry,
    and settles which entries equal the last one. *)
Ltac run_loop :=
  cbn [Operation_for target mbind option_bind];
  unfold Operation_append, back; cbn [last];
  repeat case_decide; simplify_eq.

(** More fuel never changes a result. *)
Lemma Operation_for_mono (call call' : loc → option string) cs todo :
  (∀ l s, call l = Some s → call' l = Some s) →
  ∀ result s, Operation_for call cs result todo = Some s →
              Operation_for call' cs result todo = Some s.
Proof.
  intros Hcall. induction todo as [|c todo IH]; intros result s; simpl; [done|].
  destruct (target c) as [l|]; simpl; [|done].
  destruct (call l) as [sl|] eqn:Hl; simpl; [|done].
  rewrite (Hcall _ _ Hl). simpl. apply IH.
Qed.

Lemma Operation_mono (h : heap) (n : nat) :
  ∀ (m : nat) this s, n ≤ m → Operation n h this = Some s →
              Operation m h this = Some s.
Proof.
  induction n as [|n IH]; intros m this s Hle; [done|].
  destruct m as [|m]; [lia|]. simpl.
  destruct (h !! this) as [[pp|pp cs]|]; try done.
  destruct (Operation_for (Operation n h) cs "" cs) as [r|] eqn:Hr; [|done].
  simpl. intros Hs.
  rewrite (Operation_for_mono (Operation n h) (Operation m h) cs cs
             (λ l sl, IH m l sl ltac:(lia)) "" r Hr).
  done.
Qed.

(** ** The description of a composite *)

(** C10.  A composite whose child sequence is empty describes itself as
    exactly ["Branch()"]. *)
Theorem Operation_no_children (h : heap) this p fuel :
  h !! this = Some (Composite p []) →
  Operation (S fuel) h this = Some "Branch()".
Proof. intros Hthis. simpl. by rewrite Hthis. Qed.

Lemma Operation_no_children_witness :
  (new_Composite ∅).2 !! 0 = Some (Composite indeterminate []) ∧
  Operation 1 (new_Composite ∅).2 0 = Some "Branch()".
Proof.
  split; [reflexivity|].
  apply (Operation_no_children _ 0 indeterminate 0). reflexivity.
Defined.

(** C2.  In a store where [root] holds [branchA] and [branchB], [branchA]
    holds two leaves [leaf1] and [leaf2], and [branchB] holds [leaf3], the
    description of [root] is exactly
    ["Branch(Branch(Leaf+Leaf)+Branch(Leaf))"]. *)
Theorem Operation_nested (h : heap) root branchA branchB leaf1 leaf2 leaf3
    p0 pA pB p1 p2 p3 (fuel : nat) :
  h !! root = Some (Composite p0 [ptr branchA; ptr branchB]) →
  h !! branchA = Some (Composite pA [ptr leaf1; ptr leaf2]) →
  h !! branchB = Some (Composite pB [ptr leaf3]) →
  h !! leaf1 = Some (Leaf p1) →
  h !! leaf2 = Some (Leaf p2) →
  h !! leaf3 = Some (Leaf p3) →
  leaf1 ≠ leaf2 →
  3 ≤ fuel →
  Operation fuel h root = Some "Branch(Branch(Leaf+Leaf)+Branch(Leaf))".
Proof.
  intros Hroot HA HB H1 H2 H3 Hne Hfuel.
  apply (Operation_mono h 3); [done|].
  assert (branchA ≠ branchB) as HAB by (intros ->; congruence).
  assert (Operation 1 h leaf1 = Some "Leaf") as L1 by (simpl; by rewrite H1).
  assert (Operation 1 h leaf2 = Some "Leaf") as L2 by (simpl; by rewrite H2).
  assert (Operation 1 h leaf3 = Some "Leaf") as L3 by (simpl; by rewrite H3).
  assert (Operation 2 h branchA = Some "Branch(Leaf+Leaf)") as OA.
  { rewrite Operation_S, HA. run_loop. by rewrite L1, L2. }
  assert (Operation 2 h branchB = Some "Branch(Leaf)") as OB.
  { rewrite Operation_S, HB. run_loop. by rewrite L3. }
  rewrite Operation_S, Hroot. run_loop. by rewrite OA, OB.
Qed.

Lemma Operation_nested_witness :
  run main_calls ∅ = Some main_heap ∧
  main_heap !! 1 = Some (Composite indeterminate [ptr 2; ptr 6]) ∧
  main_heap !! 2 = Some (Composite (ptr 1) [ptr 3; ptr 4]) ∧
  main_heap !! 6 = Some (Composite (ptr 1) [ptr 5]) ∧
  main_heap !! 3 = Some (Leaf (ptr 2)) ∧
  main_heap !! 4 = Some (Leaf (ptr 2)) ∧
  main_heap !! 5 = Some (Leaf (ptr 6)) ∧
  Operation 3 main_heap 1 = Some "Branch(Branch(Leaf+Leaf)+Branch(Leaf))".
Proof.
  split; [exact run_main_calls|]. do 6 (split; [reflexivity|]).
  apply (Operation_nested main_heap 1 2 6 3 4 5
           indeterminate (ptr 1) (ptr 1) (ptr 2) (ptr 2) (ptr 6) 3);
    first [reflexivity | lia].
Defined.

Lemma string_app_assoc (s1 s2 s3 : string) :
  (s1 +:+ s2) +:+ s3 = s1 +:+ (s2 +:+ s3).
Proof.
  induction s1 as [|a s1 IH]; [done|].
  change (String a ((s1 +:+ s2) +:+ s3) = String a (s1 +:+ (s2 +:+ s3))).
  by rewrite IH.
Qed.

Lemma concat_cons_snoc sep (s : string) ss s' :
  String.concat sep (s :: ss ++ [s']) =
    s +:+ (sep +:+ String.concat sep (ss ++ [s'])).
Proof. simpl. by destruct ss. Qed.

(** The loop over a sequence whose last entry occurs nowhere before: each
    description but the last is followed by the separator. *)
Lemma Operation_for_join (call : loc → option string) cs c_last s_last :
  back cs = Some c_last →
  (∃ x, c_last = ptr x ∧ call x = Some s_last) →
  ∀ pre ss result,
    c_last ∉ pre →
    Forall2 (λ c s, ∃ x, c = ptr x ∧ call x = Some s) pre ss →
    Operation_for call cs result (pre ++ [c_last]) =
      Some (result +:+ String.concat "+" (ss ++ [s_last])).
Proof.
  intros Hback (x & -> & Hx). induction pre as [|c pre IH];
    intros ss result Hnotin Hall.
  - apply Forall2_nil_inv_l in Hall as ->. simpl. rewrite Hx. simpl.
    unfold Operation_append. by rewrite decide_True.
  - apply Forall2_cons_inv_l in Hall as (s & ss' & (y & -> & Hy) & Hall & ->).
    apply not_elem_of_cons in Hnotin as [Hne Hnotin].
    change ((ptr y :: pre) ++ [ptr x]) with (ptr y :: (pre ++ [ptr x])).
    cbn [Operation_for target mbind option_bind]. rewrite Hy.
    cbn [mbind option_bind]. rewrite (IH ss' _ Hnotin Hall).
    unfold Operation_append. rewrite decide_False by congruence.
    change ((s :: ss') ++ [s_last]) with (s :: ss' ++ [s_last]).
    by rewrite concat_cons_snoc, !string_app_assoc.
Qed.

(** Where the last child occurs once in the child sequence, the
    description of a composite is the join of the descriptions of its
    children, in their order, wrapped in the branch delimiter. *)
Lemma Operation_join (h : heap) fuel this p pre c_last ss :
  h !! this = Some (Composite p (pre ++ [c_last])) →
  c_last ∉ pre →
  Forall2 (λ c s, ∃ x, c = ptr x ∧ Operation fuel h x = Some s)
          (pre ++ [c_last]) ss →
  Operation (S fuel) h this = Some (spec_describe ss).
Proof.
  intros Hthis Hnotin Hall.
  apply Forall2_app_inv_l in Hall as (ss' & sl & Hpre & Hlast & ->).
  apply Forall2_cons_inv_l in Hlast as (s_last & nil & Hl & Hnil & ->).
  apply Forall2_nil_inv_l in Hnil as ->.
  rewrite Operation_S, Hthis.
  rewrite (Operation_for_join _ _ c_last s_last (back_snoc _ _) Hl
             pre ss' "" Hnotin Hpre).
  reflexivity.
Qed.

(** C1.  A composite to which one leaf was added twice describes itself as
    ["Branch(LeafLeaf)"]: no separator stands between the two entries,
    where the join of the two descriptions is ["Branch(Leaf+Leaf)"]. *)
Theorem Operation_same_child_twice :
  run twice_calls ∅ = Some twice_heap ∧
  twice_heap !! 0 = Some (Composite indeterminate [ptr 1; ptr 1]) ∧
  (∀ fuel, Operation (S fuel) twice_heap 1 = Some "Leaf") ∧
  (∀ fuel, Operation (S (S fuel)) twice_heap 0 = Some "Branch(LeafLeaf)") ∧
  spec_describe ["Leaf"; "Leaf"] = "Branch(Leaf+Leaf)" ∧
  (∀ fuel, Operation fuel twice_heap 0 ≠
           Some (spec_describe ["Leaf"; "Leaf"])).
Proof.
  assert (∀ fuel, Operation (S (S fuel)) twice_heap 0
                  = Some "Branch(LeafLeaf)") as Hcode.
  { intros fuel. apply (Operation_mono twice_heap 2); [lia|]. reflexivity. }
  split; [exact run_twice_calls|]. split; [reflexivity|].
  split; [intros fuel; reflexivity|]. split; [exact Hcode|].
  split; [reflexivity|].
  intros [|[|fuel]]; [done|done|]. by rewrite Hcode.
Qed.

(** ** Linking and unlinking *)

(** C7.  [Add] and [Remove] on a leaf return normally and leave the whole
    store as it was, whatever the argument is. *)
Theorem Leaf_Add_Remove_noop (h : heap) this p component :
  h !! this = Some (Leaf p) →
  Add this component h = Some h ∧ Remove this component h = Some h.
Proof. intros Hthis. unfold Add, Remove. by rewrite Hthis. Qed.

Lemma Leaf_Add_Remove_noop_witness :
  main_heap !! 3 = Some (Leaf (ptr 2)) ∧
  Add 3 (ptr 4) main_heap = Some main_heap ∧
  Remove 3 (ptr 4) main_heap = Some main_heap.
Proof.
  split; [reflexivity|].
  apply (Leaf_Add_Remove_noop main_heap 3 (ptr 2) (ptr 4)). reflexivity.
Defined.

(** C9.  Right after [new Leaf] or [new Composite] the parent reference
    of the new object is indeterminate: it is not the null pointer. *)
Theorem GetParent_new_indeterminate (h : heap) :
  GetParent (new_Leaf h).1 (new_Leaf h).2 = Some indeterminate ∧
  GetParent (new_Composite h).1 (new_Composite h).2 = Some indeterminate ∧
  GetParent (new_Leaf h).1 (new_Leaf h).2 ≠ Some nullptr ∧
  GetParent (new_Composite h).1 (new_Composite h).2 ≠ Some nullptr.
Proof.
  unfold GetParent, new_Leaf, new_Composite, new. simpl.
  rewrite !lookup_insert_eq. by repeat split.
Qed.

(** C6.  For a composite [p] and a node [child]: after [p.Add(child)],
    [GetParent] on [child] returns [p] and [child] is the last entry of
    the child sequence of [p]; after [p.Remove(child)], [GetParent] on
    [child] returns the null pointer. *)
Theorem Add_Remove_GetParent (h : heap) p pp cs child :
  h !! p = Some (Composite pp cs) →
  is_Some (h !! child) →
  (∃ h' pp', Add p (ptr child) h = Some h' ∧
             GetParent child h' = Some (ptr p) ∧
             h' !! p = Some (Composite pp' (cs ++ [ptr child])) ∧
             back (cs ++ [ptr child]) = Some (ptr child)) ∧
  (∃ h', Remove p (ptr child) h = Some h' ∧
         GetParent child h' = Some nullptr).
Proof.
  intros Hp [cc Hc]. split.
  - unfold Add. rewrite Hp. simpl. rewrite (relink_Some _ _ _ _ _ cc) by done.
    eexists _, (if decide (child = p) then ptr p else pp).
    split; [done|]. unfold GetParent.
    destruct (decide (child = p)) as [->|Hne].
    + rewrite lookup_insert_eq. by rewrite back_snoc.
    + rewrite lookup_insert_eq, lookup_insert_ne, lookup_insert_eq by done.
      simpl. by rewrite parent_set_parent_, back_snoc.
  - unfold Remove. rewrite Hp. simpl. rewrite (relink_Some _ _ _ _ _ cc) by done.
    eexists. split; [done|]. unfold GetParent. rewrite lookup_insert_eq.
    case_decide; simpl; [done|]. by rewrite parent_set_parent_.
Qed.

Lemma Add_Remove_GetParent_witness :
  main_heap !! 1 = Some (Composite indeterminate [ptr 2; ptr 6]) ∧
  main_heap !! 0 = Some (Leaf indeterminate) ∧
  (∃ h' pp', Add 1 (ptr 0) main_heap = Some h' ∧
             GetParent 0 h' = Some (ptr 1) ∧
             h' !! 1 = Some (Composite pp' ([ptr 2; ptr 6] ++ [ptr 0])) ∧
             back ([ptr 2; ptr 6] ++ [ptr 0]) = Some (ptr 0)) ∧
  (∃ h', Remove 1 (ptr 0) main_heap = Some h' ∧
         GetParent 0 h' = Some nullptr).
Proof.
  split; [reflexivity|]. split; [reflexivity|].
  apply (Add_Remove_GetParent main_heap 1 indeterminate [ptr 2; ptr 6] 0).
  - reflexivity.
  - exists (Leaf indeterminate). reflexivity.
Defined.

Lemma list_remove_absent value l : value ∉ l → list_remove value l = l.
Proof.
  unfold list_remove. induction l as [|x l IH]; [done|].
  rewrite not_elem_of_cons. intros [Hx Hl].
  rewrite filter_cons_True by done. by rewrite IH.
Qed.

(** What [std::list::remove] leaves when the value occurs once. *)
Lemma list_remove_once value l1 l2 :
  value ∉ l1 → value ∉ l2 → list_remove value (l1 ++ value :: l2) = l1 ++ l2.
Proof.
  intros H1 H2. unfold list_remove.
  rewrite filter_app, filter_cons_False by naive_solver.
  fold (list_remove value l1) (list_remove value l2).
  by rewrite !list_remove_absent.
Qed.

(** C3, as the code has it.  [Remove] on a composite that holds [child]
    erases every entry equal to [child] (just that entry when [child]
    occurs once), keeps the other entries in their order, and sets the
    parent reference of [child] to the null pointer. *)
Theorem Remove_child (h : heap) this p cs child :
  h !! this = Some (Composite p cs) →
  ptr child ∈ cs →
  is_Some (h !! child) →
  ∃ h' p' cs',
    Remove this (ptr child) h = Some h' ∧
    h' !! this = Some (Composite p' cs') ∧
    cs' = (filter (λ x, x ≠ ptr child) cs) ∧
    (ptr child ∉ cs') ∧
    (∀ l1 l2, cs = l1 ++ ptr child :: l2 →
              ptr child ∉ l1 → ptr child ∉ l2 → cs' = l1 ++ l2) ∧
    GetParent child h' = Some nullptr.
Proof.
  intros Hthis _ [cc Hc]. unfold Remove. rewrite Hthis. simpl.
  rewrite (relink_Some _ _ _ _ _ cc) by done.
  eexists _, (if decide (child = this) then nullptr else p), _.
  split; [done|]. split.
  { destruct (decide (child = this)) as [->|Hne].
    - by rewrite lookup_insert_eq.
    - by rewrite lookup_insert_ne, lookup_insert_eq. }
  split; [done|]. split.
  { unfold list_remove. rewrite list_elem_of_filter. by intros [Hne _]. }
  split.
  { intros l1 l2 -> H1 H2. by apply list_remove_once. }
  unfold GetParent. rewrite lookup_insert_eq.
  case_decide; simpl; [done|]. by rewrite parent_set_parent_.
Qed.

Lemma Remove_child_witness :
  twice_heap !! 0 = Some (Composite indeterminate [ptr 1; ptr 1]) ∧
  twice_heap !! 1 = Some (Leaf (ptr 0)) ∧
  ∃ h' p' cs',
    Remove 0 (ptr 1) twice_heap = Some h' ∧
    h' !! 0 = Some (Composite p' cs') ∧
    cs' = (filter (λ x, x ≠ ptr 1) [ptr 1; ptr 1]) ∧
    (ptr 1 ∉ cs') ∧
    (∀ l1 l2, [ptr 1; ptr 1] = l1 ++ ptr 1 :: l2 →
              ptr 1 ∉ l1 → ptr 1 ∉ l2 → cs' = l1 ++ l2) ∧
    GetParent 1 h' = Some nullptr.
Proof.
  split; [reflexivity|]. split; [reflexivity|].
  apply (Remove_child twice_heap 0 indeterminate [ptr 1; ptr 1] 1).
  - reflexivity.
  - apply list_elem_of_here.
  - exists (Leaf (ptr 0)). reflexivity.
Defined.

(** C3, counterexample.  From a child sequence that holds the same child
    twice, [Remove] erases both entries; erasing the first one only would
    leave the second. *)
Lemma Remove_erases_every_duplicate :
  twice_heap !! 0 = Some (Composite indeterminate [ptr 1; ptr 1]) ∧
  Remove 0 (ptr 1) twice_heap =
    Some (<[1 := Leaf nullptr]> (<[0 := Composite indeterminate []]> ∅)) ∧
  spec_remove_first (ptr 1) [ptr 1; ptr 1] = [ptr 1] ∧
  (children_ <$> (Remove 0 (ptr 1) twice_heap ≫= (.!! 0))) ≠
    Some (spec_remove_first (ptr 1) [ptr 1; ptr 1]).
Proof.
  assert (Remove 0 (ptr 1) twice_heap =
    Some (<[1 := Leaf nullptr]> (<[0 := Composite indeterminate []]> ∅))) as E
    by (vm_compute; reflexivity).
  split; [reflexivity|]. split; [exact E|]. split; [reflexivity|].
  rewrite E. discriminate.
Qed.

(** C4, as the code has it.  [Remove] on a composite that does not hold
    [x] returns normally and changes nothing but the parent reference of
    [x], which it sets to the null pointer: the child sequence of the
    composite and every other object stay as they were, and the store is
    unchanged when that reference was null already. *)
Theorem Remove_absent (h : heap) this p cs x cx :
  h !! this = Some (Composite p cs) →
  ptr x ∉ cs →
  h !! x = Some cx →
  ∃ h',
    Remove this (ptr x) h = Some h' ∧
    h' = <[x := set_parent_ nullptr cx]> h ∧
    children_ <$> h' !! this = Some cs ∧
    (∀ y, y ≠ x → h' !! y = h !! y) ∧
    (parent_ cx = nullptr → h' = h).
Proof.
  intros Hthis Hnotin Hx. unfold Remove. rewrite Hthis. simpl.
  rewrite (relink_Some _ _ _ _ _ cx) by done.
  rewrite list_remove_absent by done.
  assert (<[x := if decide (x = this) then Composite nullptr cs
                 else set_parent_ nullptr cx]> (<[this := Composite p cs]> h)
          = <[x := set_parent_ nullptr cx]> h) as ->.
  { destruct (decide (x = this)) as [->|Hne].
    - rewrite insert_insert_eq. by simplify_eq.
    - by rewrite (insert_id h this). }
  eexists. split; [done|]. split; [done|]. split.
  { destruct (decide (x = this)) as [->|Hne].
    - rewrite lookup_insert_eq. simplify_eq. done.
    - rewrite lookup_insert_ne by done. by rewrite Hthis. }
  split.
  { intros y Hy. by rewrite lookup_insert_ne. }
  intros Hnull. apply insert_id. rewrite Hx. f_equal.
  destruct cx; simpl in *; by subst.
Qed.

Lemma Remove_absent_witness :
  stranger_heap !! 0 = Some (Composite indeterminate []) ∧
  stranger_heap !! 2 = Some (Leaf (ptr 1)) ∧
  ∃ h',
    Remove 0 (ptr 2) stranger_heap = Some h' ∧
    h' = <[2 := set_parent_ nullptr (Leaf (ptr 1))]> stranger_heap ∧
    children_ <$> h' !! 0 = Some [] ∧
    (∀ y, y ≠ 2 → h' !! y = stranger_heap !! y) ∧
    (parent_ (Leaf (ptr 1)) = nullptr → h' = stranger_heap).
Proof.
  split; [reflexivity|]. split; [reflexivity|].
  apply (Remove_absent stranger_heap 0 indeterminate [] 2 (Leaf (ptr 1))).
  - reflexivity.
  - apply not_elem_of_nil.
  - reflexivity.
Defined.

(** C4, counterexample.  A leaf held by composite 1 is removed from
    composite 0, which does not hold it: its parent reference, which
    pointed to composite 1, is the null pointer afterwards, while
    composite 1 still holds it. *)
Lemma Remove_of_stranger_clears_parent :
  run stranger_calls ∅ = Some stranger_heap ∧
  stranger_heap !! 0 = Some (Composite indeterminate []) ∧
  stranger_heap !! 1 = Some (Composite indeterminate [ptr 2]) ∧
  GetParent 2 stranger_heap = Some (ptr 1) ∧
  (Remove 0 (ptr 2) stranger_heap ≫= GetParent 2) = Some nullptr ∧
  (Remove 0 (ptr 2) stranger_heap ≫= (.!! 1)) =
    Some (Composite indeterminate [ptr 2]).
Proof. repeat split; vm_compute; reflexivity. Qed.

(** ** The parent invariant *)

(** What a store looks like after the child sequence of [this] was
    replaced by [cs'] and the parent of [x] was set to [v]. *)
Lemma relink_effect (h : heap) this p cs cs' x cx v :
  h !! this = Some (Composite p cs) →
  h !! x = Some cx →
  let h' := <[x := if decide (x = this) then Composite v cs'
                   else set_parent_ v cx]>
              (<[this := Composite p cs']> h) in
  (∀ y, children_ <$> h' !! y =
        if decide (y = this) then Some cs' else children_ <$> h !! y) ∧
  (∀ y, parent_ <$> h' !! y =
        if decide (y = x) then Some v else parent_ <$> h !! y).
Proof.
  intros Hthis Hx h'. subst h'. split; intros y.
  - destruct (decide (y = this)) as [->|Hy].
    + destruct (decide (x = this)) as [->|Hne].
      * by rewrite lookup_insert_eq.
      * by rewrite lookup_insert_ne, lookup_insert_eq.
    + destruct (decide (x = y)) as [->|Hxy].
      * rewrite lookup_insert_eq, decide_False by done. simpl.
        by rewrite children_set_parent_, Hx.
      * by rewrite !lookup_insert_ne by done.
  - destruct (decide (y = x)) as [->|Hy].
    + rewrite lookup_insert_eq. case_decide; simpl; [done|].
      by rewrite parent_set_parent_.
    + rewrite lookup_insert_ne by done.
      destruct (decide (y = this)) as [->|Hyt].
      * by rewrite lookup_insert_eq, Hthis.
      * by rewrite lookup_insert_ne.
Qed.

Lemma Add_effect (h h' : heap) this p cs component :
  h !! this = Some (Composite p cs) →
  Add this component h = Some h' →
  ∃ x, component = ptr x ∧ is_Some (h !! x) ∧
    (∀ y, children_ <$> h' !! y =
          if decide (y = this) then Some (cs ++ [ptr x])
          else children_ <$> h !! y) ∧
    (∀ y, parent_ <$> h' !! y =
          if decide (y = x) then Some (ptr this) else parent_ <$> h !! y).
Proof.
  intros Hthis. unfold Add. rewrite Hthis. simpl.
  destruct component as [| |x]; try done.
  destruct (h !! x) as [cx|] eqn:Hx.
  - rewrite (relink_Some _ _ _ _ _ cx) by done. intros [= <-].
    exists x. split; [done|]. split; [by eexists|].
    by apply (relink_effect h this p cs).
  - unfold SetParent_at, SetParent. simpl.
    destruct (decide (x = this)) as [->|Hne]; [congruence|].
    by rewrite lookup_insert_ne, Hx.
Qed.

Lemma Remove_effect (h h' : heap) this p cs component :
  h !! this = Some (Composite p cs) →
  Remove this component h = Some h' →
  ∃ x, component = ptr x ∧ is_Some (h !! x) ∧
    (∀ y, children_ <$> h' !! y =
          if decide (y = this) then Some (list_remove (ptr x) cs)
          else children_ <$> h !! y) ∧
    (∀ y, parent_ <$> h' !! y =
          if decide (y = x) then Some nullptr else parent_ <$> h !! y).
Proof.
  intros Hthis. unfold Remove. rewrite Hthis. simpl.
  destruct component as [| |x]; try done.
  destruct (h !! x) as [cx|] eqn:Hx.
  - rewrite (relink_Some _ _ _ _ _ cx) by done. intros [= <-].
    exists x. split; [done|]. split; [by eexists|].
    by apply (relink_effect h this p cs).
  - unfold SetParent_at, SetParent. simpl.
    destruct (decide (x = this)) as [->|Hne]; [congruence|].
    by rewrite lookup_insert_ne, Hx.
Qed.

Lemma holds_children (h : heap) p x :
  holds h p x ↔ ∃ cs, children_ <$> h !! p = Some cs ∧ ptr x ∈ cs.
Proof.
  unfold holds. split.
  - intros (c & Hc & Hin). exists (children_ c). by rewrite Hc.
  - intros (cs & Hcs & Hin). apply fmap_Some in Hcs as (c & Hc & ->). eauto.
Qed.

Lemma free_elsewhere_holds (h : heap) this x q :
  free_elsewhere h this (ptr x) → holds h q x → q = this.
Proof.
  intros Hfree (c & Hc & Hin).
  destruct (decide (q = this)) as [|Hne]; [done|].
  by destruct (Hfree q c Hc Hne).
Qed.

Lemma new_fresh (h : heap) c : h !! (new c h).1 = None.
Proof. apply not_elem_of_dom. simpl. apply is_fresh. Qed.

Lemma holds_same_children (h h' : heap) :
  (∀ y, children_ <$> h' !! y = children_ <$> h !! y) →
  ∀ p x, holds h' p x ↔ holds h p x.
Proof. intros Hch p x. rewrite !holds_children. by rewrite Hch. Qed.

Lemma new_tracks (h : heap) c :
  children_ c = [] → parent_ c = indeterminate →
  parent_tracks_container h → parent_tracks_container (new c h).2.
Proof.
  intros Hcs Hp [I1 I2]. pose proof (new_fresh h c) as Hfresh.
  simpl in *. set (l := fresh (dom h)) in *.
  assert (∀ p x, holds (<[l := c]> h) p x → holds h p x) as Hback.
  { intros p x (c' & Hc' & Hin). destruct (decide (p = l)) as [->|Hne].
    - rewrite lookup_insert_eq in Hc'. injection Hc' as <-.
      rewrite Hcs in Hin. by apply elem_of_nil in Hin.
    - rewrite lookup_insert_ne in Hc' by done. by exists c'. }
  assert (∀ p x, holds h p x → holds (<[l := c]> h) p x) as Hforth.
  { intros p x (c' & Hc' & Hin). exists c'. split; [|done].
    rewrite lookup_insert_ne; [done|]. intros <-. congruence. }
  split.
  - intros p x Hh%Hback. pose proof (I1 p x Hh) as Hx. unfold GetParent in *.
    rewrite lookup_insert_ne; [done|]. intros <-. by rewrite Hfresh in Hx.
  - intros x v Hv Hno Hind. unfold GetParent in *.
    destruct (decide (x = l)) as [->|Hne].
    + rewrite lookup_insert_eq in Hv. simpl in Hv. congruence.
    + rewrite lookup_insert_ne in Hv by done. apply (I2 x v Hv); [|done].
      intros p Hheld. by apply (Hno p), Hforth.
Qed.

Lemma Add_tracks (h h' : heap) this p cs component :
  h !! this = Some (Composite p cs) →
  free_elsewhere h this component →
  Add this component h = Some h' →
  parent_tracks_container h → parent_tracks_container h'.
Proof.
  intros Hthis Hfree Hadd [I1 I2].
  destruct (Add_effect _ _ _ _ _ _ Hthis Hadd) as (x & -> & _ & Hch & Hpa).
  assert (children_ <$> h !! this = Some cs) as Hcs by (by rewrite Hthis).
  split.
  - intros q y (l & Hl & Hin)%holds_children. rewrite Hch in Hl.
    unfold GetParent in *. rewrite Hpa.
    destruct (decide (y = x)) as [->|Hy].
    + f_equal. f_equal. destruct (decide (q = this)) as [|Hq]; [done|].
      symmetry.
      apply (free_elsewhere_holds h this x q Hfree), holds_children. eauto.
    + apply I1, holds_children. destruct (decide (q = this)) as [->|Hq].
      * injection Hl as <-. exists cs. split; [done|].
        apply elem_of_app in Hin as [Hin|Hin%list_elem_of_singleton];
          [done|congruence].
      * eauto.
  - intros y v Hv Hno Hind. unfold GetParent in *. rewrite Hpa in Hv.
    destruct (decide (y = x)) as [->|Hy].
    + destruct (Hno this). apply holds_children. exists (cs ++ [ptr x]).
      rewrite Hch, decide_True by done. split; [done|].
      apply elem_of_app. right. apply list_elem_of_here.
    + apply (I2 y v Hv); [|done]. intros q (l & Hl & Hin)%holds_children.
      apply (Hno q), holds_children. rewrite Hch.
      destruct (decide (q = this)) as [->|Hq]; [|eauto].
      exists (cs ++ [ptr x]). split; [done|]. apply elem_of_app. left.
      congruence.
Qed.

Lemma Remove_tracks (h h' : heap) this p cs component :
  h !! this = Some (Composite p cs) →
  free_elsewhere h this component →
  Remove this component h = Some h' →
  parent_tracks_container h → parent_tracks_container h'.
Proof.
  intros Hthis Hfree Hrem [I1 I2].
  destruct (Remove_effect _ _ _ _ _ _ Hthis Hrem) as (x & -> & _ & Hch & Hpa).
  assert (children_ <$> h !! this = Some cs) as Hcs by (by rewrite Hthis).
  assert (∀ q y, holds h' q y → holds h q y ∧ y ≠ x) as Hback.
  { intros q y (l & Hl & Hin)%holds_children. rewrite Hch in Hl.
    destruct (decide (q = this)) as [->|Hq].
    - injection Hl as <-. apply list_elem_of_filter in Hin as [Hne Hin].
      split; [|congruence]. apply holds_children. eauto.
    - assert (holds h q y) as Hh by (apply holds_children; eauto).
      split; [done|]. intros ->.
      by apply Hq, (free_elsewhere_holds h this x q). }
  split.
  - intros q y [Hh Hy]%Hback. unfold GetParent in *.
    rewrite Hpa, decide_False by done. by apply I1.
  - intros y v Hv Hno Hind. unfold GetParent in *. rewrite Hpa in Hv.
    destruct (decide (y = x)) as [->|Hy]; [congruence|].
    apply (I2 y v Hv); [|done]. intros q (l & Hl & Hin)%holds_children.
    apply (Hno q), holds_children. rewrite Hch.
    destruct (decide (q = this)) as [->|Hq]; [|eauto].
    exists (list_remove (ptr x) cs). split; [done|].
    apply list_elem_of_filter. split; [congruence|]. congruence.
Qed.

Lemma SetParent_tracks (h h' : heap) x parent :
  names_container h x parent →
  SetParent x parent h = Some h' →
  parent_tracks_container h → parent_tracks_container h'.
Proof.
  intros [Hheld Hfree]. unfold SetParent.
  destruct (h !! x) as [cx|] eqn:Hx; [|done]. simpl. intros [= <-] [I1 I2].
  assert (∀ y, children_ <$> <[x := set_parent_ parent cx]> h !! y
               = children_ <$> h !! y) as Hch.
  { intros y. destruct (decide (y = x)) as [->|Hy].
    - rewrite lookup_insert_eq, Hx. simpl. by rewrite children_set_parent_.
    - by rewrite lookup_insert_ne. }
  pose proof (holds_same_children _ _ Hch) as Hsame.
  split.
  - intros q y Hh%Hsame. unfold GetParent in *.
    destruct (decide (y = x)) as [->|Hy].
    + rewrite lookup_insert_eq. simpl. rewrite parent_set_parent_.
      destruct Hh as (c & Hc & Hin). by rewrite (Hheld q c Hc Hin).
    + rewrite lookup_insert_ne by done. by apply I1.
  - intros y v Hv Hno Hind. unfold GetParent in *.
    destruct (decide (y = x)) as [->|Hy].
    + rewrite lookup_insert_eq in Hv. simpl in Hv.
      rewrite parent_set_parent_ in Hv. injection Hv as <-. apply Hfree.
      intros q c Hc Hin. apply (Hno q), Hsame. by exists c.
    + rewrite lookup_insert_ne in Hv by done. apply (I2 y v Hv); [|done].
      intros q Hq. by apply (Hno q), Hsame.
Qed.

Lemma exec_tracks (h h' : heap) k :
  allowed h k → exec k h = Some h' →
  parent_tracks_container h → parent_tracks_container h'.
Proof.
  destruct k as [| |this component|this component|x parent]; simpl.
  - intros _ [= <-]. by apply new_tracks.
  - intros _ [= <-]. by apply new_tracks.
  - intros Hal Hex. destruct (h !! this) as [[pp|pp cs]|] eqn:Hthis.
    + unfold Add in Hex. rewrite Hthis in Hex. by injection Hex as <-.
    + apply (Add_tracks h h' this pp cs component); [done| |done].
      apply Hal. unfold IsComposite. by rewrite Hthis.
    + unfold Add in Hex. by rewrite Hthis in Hex.
  - intros Hal Hex. destruct (h !! this) as [[pp|pp cs]|] eqn:Hthis.
    + unfold Remove in Hex. rewrite Hthis in Hex. by injection Hex as <-.
    + apply (Remove_tracks h h' this pp cs component); [done| |done].
      apply Hal. unfold IsComposite. by rewrite Hthis.
    + unfold Remove in Hex. by rewrite Hthis in Hex.
  - apply SetParent_tracks.
Qed.

Lemma run_tracks ks :
  ∀ h h' : heap, disciplined ks h → run ks h = Some h' →
    parent_tracks_container h → parent_tracks_container h'.
Proof.
  induction ks as [|k ks IH]; intros h h'; simpl.
  - by intros _ [= <-].
  - intros [Hal Hdisc]. destruct (exec k h) as [h1|] eqn:Hex; [|done]. simpl.
    intros Hrun Hinv. apply (IH h1 h' Hdisc Hrun).
    by apply (exec_tracks h h1 k).
Qed.

(** C5, as the code has it.  In every store reached from nothing by
    creating nodes and by calls of [Add], [Remove] and [SetParent] that
    keep to the discipline of [allowed] (a composite adds or removes a
    node only while no other object holds it; [SetParent] only writes the
    container of the node, or null when it has none), every node held by a
    composite has that composite as its parent, and every node held by
    none has the null parent once its parent reference has been
    assigned. *)
Theorem disciplined_parent_tracks_container ks (h : heap) :
  disciplined ks ∅ → run ks ∅ = Some h → parent_tracks_container h.
Proof.
  intros Hdisc Hrun. apply (run_tracks ks ∅ h Hdisc Hrun). split.
  - intros p x (c & Hc & _). by rewrite lookup_empty in Hc.
  - intros x v Hv. unfold GetParent in Hv. by rewrite lookup_empty in Hv.
Qed.

Lemma disciplined_parent_tracks_container_witness :
  disciplined main_calls ∅ ∧ run main_calls ∅ = Some main_heap ∧
  parent_tracks_container main_heap.
Proof.
  assert (disciplined main_calls ∅) as Hdisc
    by (apply (bool_decide_unpack _); vm_compute; exact I).
  split; [exact Hdisc|]. split; [exact run_main_calls|].
  exact (disciplined_parent_tracks_container main_calls main_heap
           Hdisc run_main_calls).
Defined.

(** C5, counterexample.  The same leaf added to two composites is held by
    both, and its parent reference points to the second one only: the
    invariant as the specification words it fails in a store that [Add]
    alone reaches. *)
Lemma shared_child_breaks_parent_invariant :
  run shared_calls ∅ = Some shared_heap ∧
  holds shared_heap 0 2 ∧
  GetParent 2 shared_heap = Some (ptr 1) ∧
  ¬ spec_parent_invariant shared_heap.
Proof.
  assert (holds shared_heap 0 2) as Hh.
  { exists (Composite indeterminate [ptr 2]). split; [reflexivity|].
    apply list_elem_of_here. }
  split; [exact run_shared_calls|]. split; [exact Hh|].
  split; [reflexivity|].
  intros [I1 _]. specialize (I1 0 2 Hh). vm_compute in I1. discriminate.
Qed.

(** ** Termination of [Operation] *)

(** The interface lets a client build a cycle, and then no amount of fuel
    is enough: the hypothesis of acyclicity below cannot be dropped. *)
Lemma Operation_cycle_never_returns fuel : Operation fuel self_heap 0 = None.
Proof.
  induction fuel as [|fuel IH]; [done|]. rewrite Operation_S.
  replace (self_heap !! 0) with (Some (Composite (ptr 0) [ptr 0]))
    by reflexivity.
  cbn [Operation_for target mbind option_bind]. by rewrite IH.
Qed.

Lemma ranked_acyclic rank (h : heap) : ranked rank h → acyclic h.
Proof.
  intros Hr.
  assert (∀ p x, descendant h p x → rank x < rank p) as Hlt.
  { intros p x Hd. induction Hd as [p x (c & Hc & Hin)|p y x (c & Hc & Hin) _ IH].
    - pose proof (Hr p c Hc) as Hall. rewrite Forall_forall in Hall.
      apply (Hall (ptr x) Hin).
    - pose proof (Hr p c Hc) as Hall. rewrite Forall_forall in Hall.
      pose proof (Hall (ptr y) Hin). simpl in *. lia. }
  intros x Hx. apply Hlt in Hx. lia.
Qed.

(** A store stays closed under a change that keeps every object alive and
    puts nothing but addresses of objects into child sequences. *)
Lemma closed_step (h h' : heap) :
  closed h →
  (∀ y, is_Some (parent_ <$> h !! y) → is_Some (parent_ <$> h' !! y)) →
  (∀ p cs q, children_ <$> h' !! p = Some cs → q ∈ cs →
     (∃ cs0, children_ <$> h !! p = Some cs0 ∧ q ∈ cs0) ∨
     (∃ x, q = ptr x ∧ is_Some (h !! x))) →
  closed h'.
Proof.
  intros Hclosed Hlive Hch p c q Hp Hq.
  assert (∃ x, q = ptr x ∧ is_Some (h !! x)) as (x & -> & Hx).
  { destruct (Hch p (children_ c) q) as [(cs0 & Hcs0 & Hin)|Hnew];
      [by rewrite Hp|done| |done].
    apply fmap_Some in Hcs0 as (c0 & Hc0 & ->). by apply (Hclosed p c0). }
  exists x. split; [done|].
  rewrite <- (fmap_is_Some parent_). apply Hlive. by rewrite fmap_is_Some.
Qed.

Lemma new_closed (h : heap) c :
  children_ c = [] → closed h → closed (new c h).2.
Proof.
  intros Hcs Hclosed. simpl. set (l := fresh (dom h)).
  apply (closed_step h); [done| |].
  - intros y. rewrite !fmap_is_Some, lookup_insert_is_Some'. by right.
  - intros p cs q Hp Hq. left. destruct (decide (p = l)) as [->|Hne].
    + rewrite lookup_insert_eq in Hp. simpl in Hp. injection Hp as <-.
      rewrite Hcs in Hq. by apply elem_of_nil in Hq.
    + rewrite lookup_insert_ne in Hp by done. eauto.
Qed.

(** Every store that the interface builds is closed. *)
Lemma exec_closed (h h' : heap) k :
  exec k h = Some h' → closed h → closed h'.
Proof.
  destruct k as [| |this component|this component|x parent]; simpl.
  - intros [= <-]. by apply new_closed.
  - intros [= <-]. by apply new_closed.
  - intros Hex Hclosed. destruct (h !! this) as [[pp|pp cs]|] eqn:Hthis.
    + unfold Add in Hex. rewrite Hthis in Hex. by injection Hex as <-.
    + destruct (Add_effect _ _ _ _ _ _ Hthis Hex) as (x & -> & Hx & Hch & Hpa).
      apply (closed_step h); [done| |].
      * intros y Hy. rewrite Hpa. by case_decide.
      * intros p cs' q Hp Hq. rewrite Hch in Hp.
        destruct (decide (p = this)) as [->|Hne]; [|eauto].
        injection Hp as <-.
        apply elem_of_app in Hq as [Hq|Hq%list_elem_of_singleton];
          [|subst q; eauto].
        left. exists cs. by rewrite Hthis.
    + unfold Add in Hex. by rewrite Hthis in Hex.
  - intros Hex Hclosed. destruct (h !! this) as [[pp|pp cs]|] eqn:Hthis.
    + unfold Remove in Hex. rewrite Hthis in Hex. by injection Hex as <-.
    + destruct (Remove_effect _ _ _ _ _ _ Hthis Hex)
        as (x & -> & Hx & Hch & Hpa).
      apply (closed_step h); [done| |].
      * intros y Hy. rewrite Hpa. by case_decide.
      * intros p cs' q Hp Hq. rewrite Hch in Hp.
        destruct (decide (p = this)) as [->|Hne]; [|eauto].
        injection Hp as <-. apply list_elem_of_filter in Hq as [_ Hq].
        left. exists cs. by rewrite Hthis.
    + unfold Remove in Hex. by rewrite Hthis in Hex.
  - unfold SetParent. destruct (h !! x) as [cx|] eqn:Hx; [|done]. simpl.
    intros [= <-] Hclosed. apply (closed_step h); [done| |].
    + intros y. rewrite !fmap_is_Some, lookup_insert_is_Some'. by right.
    + intros p cs q Hp Hq. left. destruct (decide (p = x)) as [->|Hne].
      * rewrite lookup_insert_eq in Hp. simpl in Hp.
        rewrite children_set_parent_ in Hp. exists cs. by rewrite Hx.
      * rewrite lookup_insert_ne in Hp by done. eauto.
Qed.

Lemma run_closed ks :
  ∀ h h' : heap, run ks h = Some h' → closed h → closed h'.
Proof.
  induction ks as [|k ks IH]; intros h h'; simpl.
  - by intros [= <-].
  - destruct (exec k h) as [h1|] eqn:Hex; [|done]. simpl.
    intros Hrun Hc. apply (IH h1 h' Hrun). by apply (exec_closed h h1 k).
Qed.

Lemma Operation_for_total (call : loc → option string) cs todo :
  (∀ c, c ∈ todo → ∃ x, c = ptr x ∧ is_Some (call x)) →
  ∀ result, is_Some (Operation_for call cs result todo).
Proof.
  induction todo as [|c todo IH]; intros Hall result; simpl; [by eexists|].
  destruct (Hall c) as (x & -> & [s Hs]); [apply list_elem_of_here|].
  simpl. rewrite Hs. simpl. apply IH. intros c' Hc'. apply Hall.
  by apply list_elem_of_further.
Qed.

(** Along a chain of nested calls no node comes twice, so the chain is no
    longer than the tree has nodes: [visited] holds the nodes whose calls
    are still open. *)
Lemma Operation_total_from (h : heap) (nodes : gset loc) :
  closed h → acyclic h →
  (∀ p x, p ∈ nodes → holds h p x → x ∈ nodes) →
  ∀ (fuel : nat) (visited : gset loc) this,
    is_Some (h !! this) →
    this ∈ nodes →
    visited ⊆ nodes →
    (∀ a, a ∈ visited → descendant h a this) →
    size nodes ≤ fuel + size visited →
    is_Some (Operation fuel h this).
Proof.
  intros Hclosed Hacyc Hdown. induction fuel as [|fuel IH];
    intros visited this Hthis Hin Hsub Hanc Hsize.
  all: assert (this ∉ visited) as Hnew
    by (intros Hvis; exact (Hacyc this (Hanc this Hvis))).
  all: assert (size ({[this]} ∪ visited) ≤ size nodes) as Hroom
    by (apply subseteq_size, union_subseteq; split;
        [by apply singleton_subseteq_l|done]).
  all: rewrite size_union, size_singleton in Hroom
    by (by apply disjoint_singleton_l).
  - lia.
  - rewrite Operation_S. destruct Hthis as [[pp|pp cs] Hthis]; rewrite Hthis.
    + by eexists.
    + destruct (Operation_for_total (Operation fuel h) cs cs) with (result := "")
        as [r Hr]; [|rewrite Hr; by eexists].
      intros c Hc. destruct (Hclosed this _ c Hthis Hc) as (x & -> & Hx).
      exists x. split; [done|].
      assert (holds h this x) as Hh by (by eexists).
      apply (IH ({[this]} ∪ visited)); [done| | | |].
      * by apply (Hdown this x).
      * apply union_subseteq. split; [|done]. by apply singleton_subseteq_l.
      * intros a [->%elem_of_singleton|Ha]%elem_of_union.
        -- by apply tc_once.
        -- by apply (tc_r a this x); [apply Hanc|].
      * rewrite size_union, size_singleton by (by apply disjoint_singleton_l).
        lia.
Qed.

Lemma run_empty_closed ks (h : heap) : run ks ∅ = Some h → closed h.
Proof.
  intros Hrun. apply (run_closed ks ∅ h Hrun). intros p c q Hp.
  by rewrite lookup_empty in Hp.
Qed.

Lemma closed_contains_tree (h : heap) this :
  closed h → is_Some (h !! this) → contains_tree h this (dom h).
Proof.
  intros Hclosed Hthis. split; [by apply elem_of_dom|].
  intros p x _ (c & Hc & Hin). apply elem_of_dom.
  destruct (Hclosed p c (ptr x) Hc Hin) as (x' & Hx' & Hlive). congruence.
Qed.

(** In a store built through the interface where no node is its own
    descendant, [Operation] on any node returns a result, and nested calls
    never go deeper than the tree under the node has nodes: fuel for that
    many is enough, whatever set of nodes takes in the tree (the whole
    store does), and more fuel gives the same result. *)
Theorem Operation_terminates ks (h : heap) this :
  run ks ∅ = Some h →
  acyclic h →
  is_Some (h !! this) →
  ∃ s,
    (∀ (nodes : gset loc) (fuel : nat),
       contains_tree h this nodes → size nodes ≤ fuel →
       Operation fuel h this = Some s) ∧
    contains_tree h this (dom h) ∧
    Operation (size h) h this = Some s.
Proof.
  intros Hrun Hacyc Hthis. pose proof (run_empty_closed ks h Hrun) as Hclosed.
  pose proof (closed_contains_tree h this Hclosed Hthis) as Hdom.
  assert (∀ (nodes : gset loc), contains_tree h this nodes →
            is_Some (Operation (size nodes) h this)) as Htotal.
  { intros nodes [Hin Hdown].
    apply (Operation_total_from h nodes Hclosed Hacyc Hdown (size nodes) ∅);
      [done|done|apply empty_subseteq| |lia].
    intros a Ha. by apply not_elem_of_empty in Ha. }
  destruct (Htotal (dom h) Hdom) as [s Hs]. rewrite size_dom in Hs.
  exists s. split; [|done].
  intros nodes fuel Hnodes Hfuel. destruct (Htotal nodes Hnodes) as [s' Hs'].
  apply (Operation_mono h (size nodes)); [done|].
  rewrite Hs'. f_equal.
  pose proof (Operation_mono h (size nodes) (size nodes + size h) this s'
                ltac:(lia) Hs') as H1.
  pose proof (Operation_mono h (size h) (size nodes + size h) this s
                ltac:(lia) Hs) as H2.
  congruence.
Qed.

Lemma Operation_terminates_witness :
  run main_calls ∅ = Some main_heap ∧
  acyclic main_heap ∧
  main_heap !! 1 = Some (Composite indeterminate [ptr 2; ptr 6]) ∧
  ∃ s,
    (∀ (nodes : gset loc) (fuel : nat),
       contains_tree main_heap 1 nodes → size nodes ≤ fuel →
       Operation fuel main_heap 1 = Some s) ∧
    contains_tree main_heap 1 (dom main_heap) ∧
    Operation (size main_heap) main_heap 1 = Some s.
Proof.
  assert (acyclic main_heap) as Hacyc.
  { apply (ranked_acyclic main_rank).
    apply (bool_decide_unpack _). vm_compute. exact I. }
  split; [exact run_main_calls|]. split; [exact Hacyc|].
  split; [reflexivity|].
  apply (Operation_terminates main_calls main_heap 1).
  - exact run_main_calls.
  - exact Hacyc.
  - exists (Composite indeterminate [ptr 2; ptr 6]). reflexivity.
Defined.

(** ** The number of calls in a tree proper

    With a node held in several places [Operation] visits it once per
    place: for the composite that holds one leaf twice it is entered three
    times.  Where no node is held twice, the number of calls is at most
    the number of nodes of the tree. *)

Lemma Operation_calls_shared :
  Operation_calls 2 twice_heap 0 = Some 3 ∧ size twice_heap = 2.
Proof. split; vm_compute; reflexivity. Qed.

Lemma calls_for_is_Some (call : loc → option string)
    (count : loc → option nat) cs todo :
  (∀ x, is_Some (count x) ↔ is_Some (call x)) →
  ∀ result n,
    is_Some (calls_for count n todo) ↔
    is_Some (Operation_for call cs result todo).
Proof.
  intros Hsame. induction todo as [|c todo IH]; intros result n; simpl.
  - split; by eexists.
  - destruct (target c) as [x|]; simpl; [|done].
    pose proof (Hsame x) as Hx.
    destruct (count x) as [m|], (call x) as [s|]; simpl.
    + apply IH.
    + destruct Hx as [Hx _]. by destruct Hx.
    + destruct Hx as [_ Hx]. by destruct Hx.
    + done.
Qed.

(** [Operation_calls] is defined exactly where [Operation] is. *)
Lemma Operation_calls_is_Some (h : heap) fuel :
  ∀ this, is_Some (Operation_calls fuel h this) ↔
          is_Some (Operation fuel h this).
Proof.
  induction fuel as [|fuel IH]; intros this; simpl; [done|].
  destruct (h !! this) as [[pp|pp cs]|]; [split; by eexists| |done].
  pose proof (calls_for_is_Some (Operation fuel h) (Operation_calls fuel h)
                cs cs IH "" 0) as Hloop.
  destruct (calls_for (Operation_calls fuel h) 0 cs) as [n|],
     (Operation_for (Operation fuel h) cs "" cs) as [r|]; simpl.
  - split; by eexists.
  - destruct Hloop as [Hl _]. by destruct Hl.
  - destruct Hloop as [_ Hl]. by destruct Hl.
  - done.
Qed.

Section tree_proper.
Context (h : heap) (Hacyc : acyclic h) (Hun : unshared h).

(** Two ancestors of one node lie on one line. *)
Lemma holds_chain a b y :
  rtc (holds h) a y → rtc (holds h) b y →
  rtc (holds h) a b ∨ rtc (holds h) b a.
Proof.
  destruct Hun as [Hone _]. intros Ha. revert b. revert y Ha.
  apply (rtc_ind_r (λ y, ∀ b, rtc (holds h) b y →
                            rtc (holds h) a b ∨ rtc (holds h) b a)).
  - intros b Hb. by right.
  - intros p y' Hap Hpy IH b Hb.
    apply rtc_inv_r in Hb as [->|(q & Hbq & Hqy)].
    + left. by apply (rtc_r a p y').
    + rewrite <- (Hone p q y' Hpy Hqy) in Hbq. by apply IH.
Qed.

Lemma sibling_not_below this c1 c2 :
  holds h this c1 → holds h this c2 → c1 ≠ c2 →
  ¬ rtc (holds h) c1 c2.
Proof.
  destruct Hun as [Hone _]. intros H1 H2 Hne Hrtc.
  apply rtc_inv_r in Hrtc as [->|(p & Hc1p & Hp)]; [done|].
  rewrite (Hone p this c2 Hp H2) in Hc1p.
  apply (Hacyc this), (tc_rtc_r this c1 this); [by apply tc_once|done].
Qed.

Lemma siblings_disjoint this c1 c2 y :
  holds h this c1 → holds h this c2 → c1 ≠ c2 →
  rtc (holds h) c1 y → rtc (holds h) c2 y → False.
Proof.
  intros H1 H2 Hne Hy1 Hy2.
  destruct (holds_chain c1 c2 y Hy1 Hy2) as [Hrtc|Hrtc].
  - by apply (sibling_not_below this c1 c2).
  - by apply (sibling_not_below this c2 c1).
Qed.

(** The loop over the children of [this]: the calls counted so far were
    spent on the nodes of [seen], which lie under children already
    done. *)
Lemma calls_for_nodes this (count : loc → option nat) :
  (∀ x n, count x = Some n →
     ∃ under : gset loc,
       size under = n ∧ ∀ y, y ∈ under → rtc (holds h) x y) →
  ∀ todo n (seen : gset loc) n',
    NoDup todo →
    (∀ x, ptr x ∈ todo → holds h this x) →
    size seen = n →
    (∀ y, y ∈ seen →
       ∃ c, holds h this c ∧ (ptr c ∉ todo) ∧ rtc (holds h) c y) →
    calls_for count n todo = Some n' →
    ∃ under : gset loc, size under = n' ∧
      ∀ y, y ∈ under → ∃ c, holds h this c ∧ rtc (holds h) c y.
Proof.
  intros Hcount.
  induction todo as [|c todo IH];
    intros n seen n' Hnodup Hheld Hsize Hseen; simpl.
  - intros [= <-]. exists seen. split; [done|].
    intros y Hy. destruct (Hseen y Hy) as (c & Hc & _ & Hcy). eauto.
  - destruct c as [| |x]; simpl; [done|done|].
    destruct (count x) as [m|] eqn:Hm; simpl; [|done].
    destruct (Hcount x m Hm) as (under & Hunder & Hbelow).
    apply NoDup_cons in Hnodup as [Hx Hnodup].
    assert (holds h this x) as Hthisx by apply Hheld, list_elem_of_here.
    apply (IH (n + m) (seen ∪ under)); [done| | |].
    + intros x' Hx'. by apply Hheld, list_elem_of_further.
    + rewrite size_union; [lia|].
      intros y Hy1 Hy2. destruct (Hseen y Hy1) as (c & Hc & Hnot & Hcy).
      apply (siblings_disjoint this c x y); try done.
      * intros ->. apply Hnot, list_elem_of_here.
      * by apply Hbelow.
    + intros y [Hy|Hy]%elem_of_union.
      * destruct (Hseen y Hy) as (c & Hc & Hnot & Hcy).
        exists c. split; [done|]. split; [|done].
        intros Hin. by apply Hnot, list_elem_of_further.
      * exists x. split; [done|]. split; [done|]. by apply Hbelow.
Qed.

Lemma Operation_calls_nodes fuel :
  ∀ this n,
    Operation_calls fuel h this = Some n →
    ∃ under : gset loc, size under = n ∧
      ∀ y, y ∈ under → rtc (holds h) this y.
Proof.
  induction fuel as [|fuel IH]; intros this n; simpl; [done|].
  destruct (h !! this) as [[pp|pp cs]|] eqn:Hthis; [| |done].
  - intros [= <-]. exists {[this]}. split; [apply size_singleton|].
    by intros y ->%elem_of_singleton.
  - destruct (calls_for (Operation_calls fuel h) 0 cs) as [n'|] eqn:Hloop;
      simpl; [|done].
    intros [= <-].
    destruct (calls_for_nodes this (Operation_calls fuel h) IH
                cs 0 ∅ n') as (under & Hsize & Hunder).
    + destruct Hun as [_ Hnodup]. apply (Hnodup this _ Hthis).
    + intros x Hx. by exists (Composite pp cs).
    + apply size_empty.
    + intros y Hy. by apply not_elem_of_empty in Hy.
    + done.
    + exists ({[this]} ∪ under). split.
      * rewrite size_union, size_singleton; [lia|].
        apply disjoint_singleton_l. intros Hin.
        destruct (Hunder this Hin) as (c & Hc & Hcthis).
        apply (Hacyc this), (tc_rtc_r this c this); [by apply tc_once|done].
      * intros y [->%elem_of_singleton|Hy]%elem_of_union; [done|].
        destruct (Hunder y Hy) as (c & Hc & Hcy).
        by apply (rtc_l _ this c y).
Qed.

(** In an acyclic store where no node is held twice, [Operation] is
    entered at most once per node of the tree under [this]. *)
Lemma Operation_calls_bounded this (nodes : gset loc) fuel n :
  contains_tree h this nodes →
  Operation_calls fuel h this = Some n →
  n ≤ size nodes.
Proof.
  intros [Hin Hdown] Hn.
  destruct (Operation_calls_nodes fuel this n Hn) as (under & <- & Hunder).
  apply subseteq_size. intros y Hy. specialize (Hunder y Hy).
  clear Hy. revert y Hunder. apply (rtc_ind_r (λ y, y ∈ nodes)); [done|].
  intros p y' _ Hpy Hp. by apply (Hdown p y').
Qed.
End tree_proper.

Lemma calls_for_mono (count count' : loc → option nat) todo :
  (∀ l m, count l = Some m → count' l = Some m) →
  ∀ n n', calls_for count n todo = Some n' →
          calls_for count' n todo = Some n'.
Proof.
  intros Hcount. induction todo as [|c todo IH]; intros n n'; simpl; [done|].
  destruct (target c) as [l|]; simpl; [|done].
  destruct (count l) as [m|] eqn:Hl; simpl; [|done].
  rewrite (Hcount _ _ Hl). simpl. apply IH.
Qed.

(** More fuel never changes the number of calls. *)
Lemma Operation_calls_mono (h : heap) (k : nat) :
  ∀ (m : nat) this n, k ≤ m → Operation_calls k h this = Some n →
                      Operation_calls m h this = Some n.
Proof.
  induction k as [|k IH]; intros m this n Hle; [done|].
  destruct m as [|m]; [lia|]. simpl.
  destruct (h !! this) as [[pp|pp cs]|]; try done.
  destruct (calls_for (Operation_calls k h) 0 cs) as [n'|] eqn:Hn'; [|done].
  simpl. intros Hn.
  rewrite (calls_for_mono (Operation_calls k h) (Operation_calls m h) cs
             (λ l j, IH m l j ltac:(lia)) 0 n' Hn').
  done.
Qed.

(** A way to see that no node is held twice in a store: the child
    sequences of two objects share no entry, and none repeats one. *)
Lemma unshared_checked (h : heap) :
  map_Forall (λ p c,
    map_Forall (λ q c',
      p ≠ q → Forall (λ z, z ∉ children_ c') (children_ c)) h) h →
  map_Forall (λ _ c, NoDup (children_ c)) h →
  unshared h.
Proof.
  intros Hapart Hnodup. split.
  - intros p q x (c & Hc & Hin) (c' & Hc' & Hin').
    destruct (decide (p = q)) as [|Hne]; [done|].
    pose proof (Hapart p c Hc q c' Hc' Hne) as Hall.
    rewrite Forall_forall in Hall. by destruct (Hall (ptr x) Hin).
  - intros p c Hc. by apply (Hnodup p c).
Qed.

Lemma twice_heap_acyclic : acyclic twice_heap.
Proof.
  apply (ranked_acyclic (λ l, match l with 0 => 1 | _ => 0 end)).
  apply (bool_decide_unpack _). vm_compute. exact I.
Qed.

(** C8, as the code has it.  In a store built through the interface where
    no node is its own descendant, [Operation] on any node returns a
    result, and nested calls never go deeper than the tree under the node
    has nodes.  The traversal itself, the number of times [Operation] is
    entered, is bounded by the number of nodes of the tree where in
    addition no node is held twice. *)
Theorem Operation_terminates_and_visits ks (h : heap) this :
  run ks ∅ = Some h →
  acyclic h →
  is_Some (h !! this) →
  ∃ s n,
    contains_tree h this (dom h) ∧
    ∀ (nodes : gset loc) (fuel : nat),
      contains_tree h this nodes → size nodes ≤ fuel →
      Operation fuel h this = Some s ∧
      Operation_calls fuel h this = Some n ∧
      (unshared h → n ≤ size nodes).
Proof.
  intros Hrun Hacyc Hthis.
  destruct (Operation_terminates ks h this Hrun Hacyc Hthis)
    as (s & Hs & Hdom & Hsize).
  assert (is_Some (Operation_calls (size h) h this)) as [n Hn]
    by (apply Operation_calls_is_Some; by eexists).
  exists s, n. split; [done|].
  intros nodes fuel Hnodes Hfuel.
  pose proof (Hs nodes fuel Hnodes Hfuel) as Hop.
  assert (Operation_calls fuel h this = Some n) as Hcalls.
  { assert (is_Some (Operation_calls fuel h this)) as [n' Hn']
      by (apply Operation_calls_is_Some; by eexists).
    pose proof (Operation_calls_mono h fuel (fuel + size h) this n'
                  ltac:(lia) Hn') as H1.
    pose proof (Operation_calls_mono h (size h) (fuel + size h) this n
                  ltac:(lia) Hn) as H2.
    congruence. }
  split; [done|]. split; [done|].
  intros Hun. by apply (Operation_calls_bounded h Hacyc Hun this nodes fuel n).
Qed.

Lemma Operation_terminates_and_visits_witness :
  run main_calls ∅ = Some main_heap ∧
  acyclic main_heap ∧
  main_heap !! 1 = Some (Composite indeterminate [ptr 2; ptr 6]) ∧
  unshared main_heap ∧
  ∃ s n,
    contains_tree main_heap 1 (dom main_heap) ∧
    ∀ (nodes : gset loc) (fuel : nat),
      contains_tree main_heap 1 nodes → size nodes ≤ fuel →
      Operation fuel main_heap 1 = Some s ∧
      Operation_calls fuel main_heap 1 = Some n ∧
      (unshared main_heap → n ≤ size nodes).
Proof.
  assert (acyclic main_heap) as Hacyc.
  { apply (ranked_acyclic main_rank).
    apply (bool_decide_unpack _). vm_compute. exact I. }
  assert (unshared main_heap) as Hun.
  { apply unshared_checked;
      apply (bool_decide_unpack _); vm_compute; exact I. }
  split; [exact run_main_calls|]. split; [exact Hacyc|].
  split; [reflexivity|]. split; [exact Hun|].
  apply (Operation_terminates_and_visits main_calls main_heap 1).
  - exact run_main_calls.
  - exact Hacyc.
  - exists (Composite indeterminate [ptr 2; ptr 6]). reflexivity.
Defined.

(** C8, counterexample.  The composite that holds one leaf twice is built
    through the interface and no node in it is its own descendant; the
    tree under the composite has two nodes, and [Operation] on it is
    entered three times: acyclicity alone does not bound the traversal by
    the number of nodes. *)
Lemma shared_child_visited_twice :
  run twice_calls ∅ = Some twice_heap ∧
  acyclic twice_heap ∧
  contains_tree twice_heap 0 (dom twice_heap) ∧
  size (dom twice_heap) = 2 ∧
  Operation 2 twice_heap 0 = Some "Branch(LeafLeaf)" ∧
  Operation_calls 2 twice_heap 0 = Some 3 ∧
  (∀ fuel n, Operation_calls fuel twice_heap 0 = Some n →
             ¬ n ≤ size (dom twice_heap)).
Proof.
  assert (Operation_calls 2 twice_heap 0 = Some 3) as Hcalls by reflexivity.
  split; [exact run_twice_calls|]. split; [exact twice_heap_acyclic|].
  split.
  { apply closed_contains_tree.
    - exact (run_empty_closed twice_calls twice_heap run_twice_calls).
    - by eexists. }
  split; [reflexivity|]. split; [reflexivity|]. split; [exact Hcalls|].
  intros fuel n Hn.
  pose proof (Operation_calls_mono twice_heap fuel (fuel + 2) 0 n
                ltac:(lia) Hn) as H1.
  pose proof (Operation_calls_mono twice_heap 2 (fuel + 2) 0 3
                ltac:(lia) Hcalls) as H2.
  assert (n = 3) as -> by congruence.
  change (size (dom twice_heap)) with 2. lia.
Qed.

(** ** Further properties of the member functions

    What [Operation] reads, what the linking functions leave alone, and
    how they compose. *)

Lemma shape_set_parent_ v c : shape (set_parent_ v c) = shape c.
Proof. by destruct c. Qed.

Lemma children_shape c : children_ c = default [] (shape c).
Proof. by destruct c. Qed.

Lemma IsComposite_shape (h h' : heap) y :
  shape <$> h' !! y = shape <$> h !! y →
  IsComposite y h' = IsComposite y h.
Proof.
  unfold IsComposite.
  destruct (h !! y) as [[?|? ?]|], (h' !! y) as [[?|? ?]|]; simpl; congruence.
Qed.

Lemma holds_shape (h h' : heap) :
  (∀ y, shape <$> h' !! y = shape <$> h !! y) →
  ∀ p x, holds h' p x ↔ holds h p x.
Proof.
  intros Hsh. apply holds_same_children. intros y. specialize (Hsh y).
  destruct (h !! y) as [c|], (h' !! y) as [c'|]; simpl in *; try congruence.
  rewrite !children_shape. congruence.
Qed.

(** The class and child sequence of every object after the two writes of
    [Composite::Add] and [Composite::Remove]. *)
Lemma relink_shape (h : heap) this p cs cs' x cx v :
  h !! this = Some (Composite p cs) →
  h !! x = Some cx →
  ∀ y, shape <$> (<[x := if decide (x = this) then Composite v cs'
                         else set_parent_ v cx]>
                    (<[this := Composite p cs']> h)) !! y =
       if decide (y = this) then Some (Some cs') else shape <$> h !! y.
Proof.
  intros Hthis Hx y. destruct (decide (y = this)) as [->|Hy].
  - destruct (decide (x = this)) as [->|Hne].
    + by rewrite lookup_insert_eq.
    + by rewrite lookup_insert_ne, lookup_insert_eq.
  - destruct (decide (x = y)) as [->|Hxy].
    + rewrite lookup_insert_eq, decide_False by done. simpl.
      by rewrite shape_set_parent_, Hx.
    + by rewrite !lookup_insert_ne by done.
Qed.

Lemma IsComposite_set_parent_ (h : heap) x cx v y :
  h !! x = Some cx →
  IsComposite y (<[x := set_parent_ v cx]> h) = IsComposite y h.
Proof.
  intros Hx. apply IsComposite_shape. destruct (decide (y = x)) as [->|Hne].
  - rewrite lookup_insert_eq, Hx. simpl. by rewrite shape_set_parent_.
  - by rewrite lookup_insert_ne.
Qed.

Lemma relink_IsComposite (h : heap) this p cs cs' x cx v y :
  h !! this = Some (Composite p cs) →
  h !! x = Some cx →
  IsComposite y (<[x := if decide (x = this) then Composite v cs'
                        else set_parent_ v cx]>
                   (<[this := Composite p cs']> h)) = IsComposite y h.
Proof.
  intros Hthis Hx. unfold IsComposite.
  destruct (decide (y = this)) as [->|Hy].
  - rewrite Hthis. destruct (decide (x = this)) as [->|Hne].
    + by rewrite lookup_insert_eq.
    + by rewrite lookup_insert_ne, lookup_insert_eq.
  - destruct (decide (x = y)) as [->|Hxy].
    + rewrite lookup_insert_eq, decide_False, Hx by done. by destruct cx.
    + by rewrite !lookup_insert_ne by done.
Qed.

Lemma Add_inv (h h' : heap) this p cs component :
  h !! this = Some (Composite p cs) →
  Add this component h = Some h' →
  ∃ x cx, component = ptr x ∧ h !! x = Some cx ∧
    h' = <[x := if decide (x = this) then Composite (ptr this) (cs ++ [ptr x])
                else set_parent_ (ptr this) cx]>
           (<[this := Composite p (cs ++ [ptr x])]> h).
Proof.
  intros Hthis. unfold Add. rewrite Hthis. simpl.
  destruct component as [| |x]; try done.
  destruct (h !! x) as [cx|] eqn:Hx.
  - rewrite (relink_Some _ _ _ _ _ cx) by done. intros [= <-]. eauto.
  - unfold SetParent_at, SetParent. simpl.
    destruct (decide (x = this)) as [->|Hne]; [congruence|].
    by rewrite lookup_insert_ne, Hx.
Qed.

Lemma Remove_inv (h h' : heap) this p cs component :
  h !! this = Some (Composite p cs) →
  Remove this component h = Some h' →
  ∃ x cx, component = ptr x ∧ h !! x = Some cx ∧
    h' = <[x := if decide (x = this)
                then Composite nullptr (list_remove (ptr x) cs)
                else set_parent_ nullptr cx]>
           (<[this := Composite p (list_remove (ptr x) cs)]> h).
Proof.
  intros Hthis. unfold Remove. rewrite Hthis. simpl.
  destruct component as [| |x]; try done.
  destruct (h !! x) as [cx|] eqn:Hx.
  - rewrite (relink_Some _ _ _ _ _ cx) by done. intros [= <-]. eauto.
  - unfold SetParent_at, SetParent. simpl.
    destruct (decide (x = this)) as [->|Hne]; [congruence|].
    by rewrite lookup_insert_ne, Hx.
Qed.

(** No call changes the class of an object. *)
Lemma exec_IsComposite (h h' : heap) k x b :
  exec k h = Some h' →
  IsComposite x h = Some b → IsComposite x h' = Some b.
Proof.
  assert (∀ c, IsComposite x h = Some b →
               IsComposite x (new c h).2 = Some b) as Hnew.
  { intros c Hb. simpl. unfold IsComposite in *.
    destruct (decide (x = fresh (dom h))) as [->|Hne].
    - pose proof (new_fresh h c) as Hfresh. simpl in Hfresh.
      by rewrite Hfresh in Hb.
    - by rewrite lookup_insert_ne. }
  destruct k as [| |this component|this component|y parent]; simpl.
  - intros [= <-]. apply Hnew.
  - intros [= <-]. apply Hnew.
  - intros Hex Hb. destruct (h !! this) as [[pp|pp cs]|] eqn:Hthis.
    + unfold Add in Hex. rewrite Hthis in Hex. by injection Hex as <-.
    + destruct (Add_inv _ _ _ _ _ _ Hthis Hex) as (z & cz & -> & Hz & ->).
      by rewrite (relink_IsComposite h this pp cs _ z cz _ x Hthis Hz).
    + unfold Add in Hex. by rewrite Hthis in Hex.
  - intros Hex Hb. destruct (h !! this) as [[pp|pp cs]|] eqn:Hthis.
    + unfold Remove in Hex. rewrite Hthis in Hex. by injection Hex as <-.
    + destruct (Remove_inv _ _ _ _ _ _ Hthis Hex) as (z & cz & -> & Hz & ->).
      by rewrite (relink_IsComposite h this pp cs _ z cz _ x Hthis Hz).
    + unfold Remove in Hex. by rewrite Hthis in Hex.
  - unfold SetParent. destruct (h !! y) as [cy|] eqn:Hy; [|done]. simpl.
    intros [= <-] Hb. by rewrite (IsComposite_set_parent_ h y cy).
Qed.

(** X1.  Whatever the client calls, an object stays what it was made:
    [IsComposite] answers on every later store as it did before, so no
    call destroys an object or turns a leaf into a composite or back. *)
Theorem run_keeps_IsComposite ks :
  ∀ (h h' : heap) x b,
    run ks h = Some h' →
    IsComposite x h = Some b → IsComposite x h' = Some b.
Proof.
  induction ks as [|k ks IH]; intros h h' x b; simpl.
  - by intros [= <-].
  - destruct (exec k h) as [h1|] eqn:Hex; [|done]. simpl.
    intros Hrun Hb. apply (IH h1 h' x b Hrun).
    by apply (exec_IsComposite h h1 k).
Qed.

Lemma run_keeps_IsComposite_witness :
  run [CallAdd 1 (ptr 0); CallRemove 1 (ptr 2); CallSetParent 1 (ptr 0)]
      main_heap
    = Some (<[1 := Composite (ptr 0) [ptr 6; ptr 0]]>
              (<[0 := Leaf (ptr 1)]> (<[2 := Composite nullptr [ptr 3; ptr 4]]>
                 main_heap))) ∧
  IsComposite 1 main_heap = Some true ∧
  IsComposite 1 (<[1 := Composite (ptr 0) [ptr 6; ptr 0]]>
              (<[0 := Leaf (ptr 1)]> (<[2 := Composite nullptr [ptr 3; ptr 4]]>
                 main_heap))) = Some true.
Proof.
  assert (run [CallAdd 1 (ptr 0); CallRemove 1 (ptr 2);
               CallSetParent 1 (ptr 0)] main_heap
    = Some (<[1 := Composite (ptr 0) [ptr 6; ptr 0]]>
              (<[0 := Leaf (ptr 1)]> (<[2 := Composite nullptr [ptr 3; ptr 4]]>
                 main_heap)))) as Hrun by (vm_compute; reflexivity).
  split; [exact Hrun|]. split; [reflexivity|].
  apply (run_keeps_IsComposite _ main_heap _ 1 true Hrun). reflexivity.
Defined.

Lemma Operation_for_ext (call call' : loc → option string) cs todo :
  (∀ x, ptr x ∈ todo → call' x = call x) →
  ∀ result, Operation_for call' cs result todo
            = Operation_for call cs result todo.
Proof.
  induction todo as [|c todo IH]; intros Hcall result; simpl; [done|].
  destruct c as [| |x]; simpl; [done|done|].
  rewrite (Hcall x) by apply list_elem_of_here.
  destruct (call x) as [s|]; simpl; [|done].
  apply IH. intros x' Hx'. by apply Hcall, list_elem_of_further.
Qed.

(** One entry that cannot be described makes the whole loop fail. *)
Lemma Operation_for_None (call : loc → option string) cs todo c :
  c ∈ todo →
  (∀ x, c = ptr x → call x = None) →
  ∀ result, Operation_for call cs result todo = None.
Proof.
  intros Hin Hc. induction todo as [|c' todo IH]; intros result.
  - by apply elem_of_nil in Hin.
  - simpl. destruct c' as [| |x]; simpl; [done|done|].
    destruct (call x) as [s|] eqn:Hx; simpl; [|done].
    apply IH. apply elem_of_cons in Hin as [->|Hin]; [|done].
    by rewrite (Hc x) in Hx.
Qed.

(** [Operation] on [x] reads nothing but the class and the child sequence
    of the objects under [x]. *)
Lemma Operation_agree (h h' : heap) fuel :
  ∀ x,
    (∀ y, rtc (holds h) x y → shape <$> h' !! y = shape <$> h !! y) →
    Operation fuel h' x = Operation fuel h x.
Proof.
  induction fuel as [|fuel IH]; intros x Hag; [done|].
  rewrite !Operation_S. pose proof (Hag x (rtc_refl _ _)) as Hx.
  destruct (h !! x) as [[pp|pp cs]|] eqn:Hhx,
           (h' !! x) as [[pp'|pp' cs']|]; simpl in Hx; simplify_eq; try done.
  rewrite (Operation_for_ext (Operation fuel h) (Operation fuel h')); [done|].
  intros z Hz. apply IH. intros y Hy. apply Hag.
  apply (rtc_l _ x z y); [|done]. eexists. split; [exact Hhx|done].
Qed.

(** X2.  [SetParent] writes the parent reference of its object and nothing
    else: [GetParent] then returns the value written, every other object
    is as before, no class and no child sequence has changed (no
    composite gains or loses a child), and every description is what it
    was. *)
Theorem SetParent_writes_parent_only (h : heap) x cx v :
  h !! x = Some cx →
  ∃ h',
    SetParent x v h = Some h' ∧
    GetParent x h' = Some v ∧
    (∀ y, y ≠ x → h' !! y = h !! y) ∧
    (∀ y, shape <$> h' !! y = shape <$> h !! y) ∧
    (∀ p y, holds h' p y ↔ holds h p y) ∧
    (∀ fuel y, Operation fuel h' y = Operation fuel h y).
Proof.
  intros Hx. unfold SetParent. rewrite Hx. simpl. eexists. split; [done|].
  assert (∀ y, shape <$> <[x := set_parent_ v cx]> h !! y
               = shape <$> h !! y) as Hshape.
  { intros y. destruct (decide (y = x)) as [->|Hne].
    - rewrite lookup_insert_eq, Hx. simpl. by rewrite shape_set_parent_.
    - by rewrite lookup_insert_ne. }
  split.
  { unfold GetParent. rewrite lookup_insert_eq. simpl.
    by rewrite parent_set_parent_. }
  split; [intros y Hy; by rewrite lookup_insert_ne|].
  split; [done|]. split; [by apply holds_shape|].
  intros fuel y. apply Operation_agree. intros z _. apply Hshape.
Qed.

Lemma SetParent_writes_parent_only_witness :
  main_heap !! 2 = Some (Composite (ptr 1) [ptr 3; ptr 4]) ∧
  ∃ h',
    SetParent 2 (ptr 5) main_heap = Some h' ∧
    GetParent 2 h' = Some (ptr 5) ∧
    (∀ y, y ≠ 2 → h' !! y = main_heap !! y) ∧
    (∀ y, shape <$> h' !! y = shape <$> main_heap !! y) ∧
    (∀ p y, holds h' p y ↔ holds main_heap p y) ∧
    (∀ fuel y, Operation fuel h' y = Operation fuel main_heap y).
Proof.
  split; [reflexivity|].
  apply (SetParent_writes_parent_only main_heap 2
           (Composite (ptr 1) [ptr 3; ptr 4]) (ptr 5)).
  reflexivity.
Defined.

(** X3.  The effect of [Add] and [Remove] on who holds whom.  After
    [p.Add(c)] every composite holds what it held, and [p] holds [c] as
    well: a composite that held [c] before still does.  After
    [p.Remove(c)] every composite holds what it held, except that [p] no
    longer holds [c]: another holder of [c] keeps it. *)
Theorem Add_Remove_holds (h : heap) p pp cs c :
  h !! p = Some (Composite pp cs) →
  is_Some (h !! c) →
  (∃ h', Add p (ptr c) h = Some h' ∧
         ∀ q y, holds h' q y ↔ holds h q y ∨ (q = p ∧ y = c)) ∧
  (∃ h', Remove p (ptr c) h = Some h' ∧
         ∀ q y, holds h' q y ↔ holds h q y ∧ ¬ (q = p ∧ y = c)).
Proof.
  intros Hp [cc Hc].
  assert (children_ <$> h !! p = Some cs) as Hcs by (by rewrite Hp).
  split.
  - destruct (Add p (ptr c) h) as [h'|] eqn:Hadd.
    2:{ unfold Add in Hadd. rewrite Hp in Hadd. simpl in Hadd.
        by rewrite (relink_Some _ _ _ _ _ cc) in Hadd. }
    exists h'. split; [done|].
    destruct (Add_effect _ _ _ _ _ _ Hp Hadd) as (x & [= <-] & _ & Hch & _).
    intros q y. rewrite !holds_children, Hch.
    destruct (decide (q = p)) as [->|Hq].
    + rewrite Hcs. split.
      * intros (l & [= <-] & [Hin|Hin%list_elem_of_singleton]%elem_of_app).
        -- left. eauto.
        -- right. split; [done|]. congruence.
      * intros [(l & [= <-] & Hin)|[_ ->]];
          (eexists; split; [done|]); apply elem_of_app.
        -- by left.
        -- right. apply list_elem_of_here.
    + split; [by left|]. intros [Hh|[Heq _]]; [done|by destruct Hq].
  - destruct (Remove p (ptr c) h) as [h'|] eqn:Hrem.
    2:{ unfold Remove in Hrem. rewrite Hp in Hrem. simpl in Hrem.
        by rewrite (relink_Some _ _ _ _ _ cc) in Hrem. }
    exists h'. split; [done|].
    destruct (Remove_effect _ _ _ _ _ _ Hp Hrem) as (x & [= <-] & _ & Hch & _).
    intros q y. rewrite !holds_children, Hch.
    destruct (decide (q = p)) as [->|Hq].
    + rewrite Hcs. split.
      * intros (l & [= <-] & [Hne Hin]%list_elem_of_filter). split; [eauto|].
        intros [_ ->]. by destruct Hne.
      * intros [(l & [= <-] & Hin) Hnot]. eexists. split; [done|].
        apply list_elem_of_filter. split; [|done].
        intros [= ->]. by destruct Hnot.
    + split; [|by intros [Hh _]]. intros Hh. split; [done|].
      intros [Heq _]. by destruct Hq.
Qed.

Lemma Add_Remove_holds_witness :
  shared_heap !! 1 = Some (Composite indeterminate [ptr 2]) ∧
  shared_heap !! 2 = Some (Leaf (ptr 1)) ∧
  (∃ h', Add 1 (ptr 2) shared_heap = Some h' ∧
         ∀ q y, holds h' q y ↔ holds shared_heap q y ∨ (q = 1 ∧ y = 2)) ∧
  (∃ h', Remove 1 (ptr 2) shared_heap = Some h' ∧
         ∀ q y, holds h' q y ↔ holds shared_heap q y ∧ ¬ (q = 1 ∧ y = 2)).
Proof.
  split; [reflexivity|]. split; [reflexivity|].
  apply (Add_Remove_holds shared_heap 1 indeterminate [ptr 2] 2).
  - reflexivity.
  - exists (Leaf (ptr 1)). reflexivity.
Defined.

Lemma Operation_live (h : heap) fuel x s :
  Operation fuel h x = Some s → is_Some (h !! x).
Proof.
  destruct fuel as [|fuel]; [done|]. rewrite Operation_S.
  destruct (h !! x); [by eexists|done].
Qed.

Lemma described_agree (h h' : heap) fuel l ss :
  (∀ x, ptr x ∈ l → Operation fuel h' x = Operation fuel h x) →
  Forall2 (λ c s, ∃ x, c = ptr x ∧ Operation fuel h x = Some s) l ss →
  Forall2 (λ c s, ∃ x, c = ptr x ∧ Operation fuel h' x = Some s) l ss.
Proof.
  intros Hag Hall. induction Hall as [|c s l ss (x & -> & Hx) Hall IH].
  - constructor.
  - constructor.
    + exists x. split; [done|]. rewrite Hag; [done|apply list_elem_of_here].
    + apply IH. intros x' Hx'. by apply Hag, list_elem_of_further.
Qed.

(** Towards a node that is its own descendant [Operation] never
    returns. *)
Lemma Operation_None_towards_cycle (h : heap) x :
  descendant h x x →
  ∀ fuel y, rtc (holds h) y x → Operation fuel h y = None.
Proof.
  intros Hcyc.
  assert (∀ y, rtc (holds h) y x →
            ∃ z, holds h y z ∧ rtc (holds h) z x) as Hnext.
  { intros y Hyx. apply rtc_inv in Hyx as [->|(z & Hyz & Hzx)]; [|eauto].
    inversion Hcyc as [? ? Hxx|? z ? Hxz Hzx]; subst.
    - exists x. by split.
    - exists z. split; [done|]. by apply tc_rtc. }
  induction fuel as [|fuel IH]; intros y Hyx; [done|].
  destruct (Hnext y Hyx) as (z & (c & Hc & Hin) & Hzx).
  rewrite Operation_S, Hc. destruct c as [pp|pp cs]; simpl in Hin.
  - by apply elem_of_nil in Hin.
  - rewrite (Operation_for_None _ cs cs (ptr z)); [done|done|].
    intros z' [= <-]. by apply IH.
Qed.

Lemma described_elem (h : heap) fuel l ss x :
  Forall2 (λ c s, ∃ x, c = ptr x ∧ Operation fuel h x = Some s) l ss →
  ptr x ∈ l → is_Some (Operation fuel h x).
Proof.
  intros Hall. induction Hall as [|c s l ss (x' & -> & Hx') Hall IH].
  - intros Hin. by apply elem_of_nil in Hin.
  - intros [[= ->]|Hin]%elem_of_cons; [by eexists|by apply IH].
Qed.

(** A child that has a description does not lead back to its holder. *)
Lemma described_child_below (h : heap) fuel p x :
  holds h p x → is_Some (Operation fuel h x) → ¬ rtc (holds h) x p.
Proof.
  intros Hpx [s Hs] Hxp.
  assert (descendant h x x) as Hcyc
    by (apply (tc_rtc_l x p x); [done|by apply tc_once]).
  rewrite (Operation_None_towards_cycle h x Hcyc fuel x) in Hs; [done|].
  apply rtc_refl.
Qed.

(** The description of [p] once [c] has been added, where the new link
    closes no cycle: [c] does not lead to [p]. *)
Lemma Operation_after_Add (h h' : heap) p pp cs c fuel ss s :
  h !! p = Some (Composite pp cs) →
  ptr c ∉ cs →
  ¬ rtc (holds h) c p →
  Forall2 (λ q s, ∃ x, q = ptr x ∧ Operation fuel h x = Some s) cs ss →
  Operation fuel h c = Some s →
  Add p (ptr c) h = Some h' →
  Operation (S fuel) h' p =
    Some (("Branch(" +:+ String.concat "+" (ss ++ [s])) +:+ ")") ∧
  (∀ y fuel', ¬ rtc (holds h) y p →
     Operation fuel' h' y = Operation fuel' h y).
Proof.
  intros Hp Hnotin Hc Hall Hs Hadd.
  assert (∀ x, ptr x ∈ cs → ¬ rtc (holds h) x p) as Hkids.
  { intros x Hin. apply (described_child_below h fuel).
    - by exists (Composite pp cs).
    - by apply (described_elem h fuel cs ss). }
  destruct (Add_inv _ _ _ _ _ _ Hp Hadd) as (x & cx & [= <-] & Hx & ->).
  pose proof (relink_shape h p pp cs (cs ++ [ptr c]) c cx (ptr p) Hp Hx)
    as Hsh.
  set (h' := <[c := _]> _) in *.
  assert (∀ y fuel', ¬ rtc (holds h) y p →
            Operation fuel' h' y = Operation fuel' h y) as Hframe.
  { intros y fuel' Hy. apply Operation_agree. intros z Hz. rewrite Hsh.
    rewrite decide_False; [done|]. by intros ->. }
  split; [|done].
  pose proof (Hsh p) as Hp'. rewrite decide_True in Hp' by done.
  destruct (h' !! p) as [[pp'|pp' cs']|] eqn:Hh'p; simplify_eq/=.
  apply (Operation_join h' fuel p pp' cs (ptr c) (ss ++ [s])); [done|done|].
  apply Forall2_app.
  - apply (described_agree h); [|done]. intros z Hz. by apply Hframe, Hkids.
  - constructor; [|constructor]. exists c. split; [done|].
    by rewrite Hframe.
Qed.

(** X4.  Adding a child appends its description.  Where [c] is not yet a
    child of the composite [p] and does not lead to [p], after
    [p.Add(c)] the description of [p] is the branch around the
    descriptions of its former children and of [c], joined by ["+"]; [c]
    has [p] as its parent; and the description of every node that does
    not lead to [p] is what it was. *)
Theorem Add_appends_description (h : heap) p pp cs c fuel ss s :
  h !! p = Some (Composite pp cs) →
  ptr c ∉ cs →
  ¬ rtc (holds h) c p →
  Forall2 (λ q s, ∃ x, q = ptr x ∧ Operation fuel h x = Some s) cs ss →
  Operation fuel h c = Some s →
  ∃ h',
    Add p (ptr c) h = Some h' ∧
    GetParent c h' = Some (ptr p) ∧
    Operation (S fuel) h' p =
      Some (("Branch(" +:+ String.concat "+" (ss ++ [s])) +:+ ")") ∧
    (∀ y fuel', ¬ rtc (holds h) y p →
       Operation fuel' h' y = Operation fuel' h y).
Proof.
  intros Hp Hnotin Hc Hall Hs.
  destruct (Operation_live _ _ _ _ Hs) as [cc Hcc].
  destruct (Add p (ptr c) h) as [h'|] eqn:Hadd.
  2:{ unfold Add in Hadd. rewrite Hp in Hadd. simpl in Hadd.
      by rewrite (relink_Some _ _ _ _ _ cc) in Hadd. }
  exists h'. split; [done|]. split.
  { destruct (Add_effect _ _ _ _ _ _ Hp Hadd) as (x & [= <-] & _ & _ & Hpa).
    unfold GetParent. by rewrite Hpa, decide_True. }
  by apply (Operation_after_Add h h' p pp cs c fuel ss s).
Qed.

Lemma ranked_rtc rank (h : heap) x y :
  ranked rank h → rtc (holds h) x y → rank y ≤ rank x.
Proof.
  intros Hr Hxy. induction Hxy as [|x z y (c & Hc & Hin) _ IH]; [done|].
  pose proof (Hr x c Hc) as Hall. rewrite Forall_forall in Hall.
  pose proof (Hall (ptr z) Hin). simpl in *. lia.
Qed.

Lemma main_heap_ranked : ranked main_rank main_heap.
Proof. apply (bool_decide_unpack _). vm_compute. exact I. Qed.

Lemma main_heap_below_tree x : main_rank x < 2 → ¬ rtc (holds main_heap) x 1.
Proof.
  intros Hlt Hrtc.
  pose proof (ranked_rtc main_rank main_heap x 1 main_heap_ranked Hrtc) as Hle.
  change (main_rank 1) with 2 in Hle. lia.
Qed.

Lemma main_heap_branches_described :
  Forall2 (λ q s, ∃ x, q = ptr x ∧ Operation 2 main_heap x = Some s)
          [ptr 2; ptr 6] ["Branch(Leaf+Leaf)"; "Branch(Leaf)"].
Proof.
  constructor; [by exists 2|]. constructor; [by exists 6|]. constructor.
Qed.

Lemma Add_appends_description_witness :
  main_heap !! 1 = Some (Composite indeterminate [ptr 2; ptr 6]) ∧
  Operation 2 main_heap 0 = Some "Leaf" ∧
  ∃ h',
    Add 1 (ptr 0) main_heap = Some h' ∧
    GetParent 0 h' = Some (ptr 1) ∧
    Operation 3 h' 1 =
      Some (("Branch(" +:+
             String.concat "+" (["Branch(Leaf+Leaf)"; "Branch(Leaf)"] ++ ["Leaf"]))
            +:+ ")") ∧
    (∀ y fuel', ¬ rtc (holds main_heap) y 1 →
       Operation fuel' h' y = Operation fuel' main_heap y).
Proof.
  split; [reflexivity|]. split; [reflexivity|].
  apply (Add_appends_description main_heap 1 indeterminate [ptr 2; ptr 6] 0 2
           ["Branch(Leaf+Leaf)"; "Branch(Leaf)"] "Leaf").
  - reflexivity.
  - intros Hin. apply elem_of_cons in Hin as [[=]|Hin].
    apply elem_of_cons in Hin as [[=]|Hin]. by apply elem_of_nil in Hin.
  - apply main_heap_below_tree. simpl. lia.
  - exact main_heap_branches_described.
  - reflexivity.
Defined.

(** X5.  Adding a node that the composite does not hold yet and removing
    it again gives back the store, but for the parent reference of the
    node, which is null afterwards whatever it was: the child sequence of
    the composite and every description are as before. *)
Theorem Add_then_Remove (h : heap) p pp cs c cc :
  h !! p = Some (Composite pp cs) →
  ptr c ∉ cs →
  h !! c = Some cc →
  ∃ h' h'',
    Add p (ptr c) h = Some h' ∧
    Remove p (ptr c) h' = Some h'' ∧
    h'' = <[c := set_parent_ nullptr cc]> h ∧
    h'' !! p = Some (if decide (c = p) then Composite nullptr cs
                     else Composite pp cs) ∧
    (∀ fuel y, Operation fuel h'' y = Operation fuel h y).
Proof.
  intros Hp Hnotin Hc.
  assert (list_remove (ptr c) (cs ++ [ptr c]) = cs) as Hrem.
  { rewrite (list_remove_once (ptr c) cs []); [apply app_nil_r|done|].
    apply not_elem_of_nil. }
  assert (∃ h' h'', Add p (ptr c) h = Some h' ∧
            Remove p (ptr c) h' = Some h'' ∧
            h'' = <[c := set_parent_ nullptr cc]> h) as (h' & h'' & Ha & Hr & ->).
  { unfold Add. rewrite Hp. simpl. rewrite (relink_Some _ _ _ _ _ cc) by done.
    destruct (decide (c = p)) as [->|Hne].
    - eexists _, _. split; [done|]. unfold Remove.
      rewrite lookup_insert_eq. simpl. rewrite Hrem.
      rewrite (relink_Some _ _ _ _ _ (Composite (ptr p) (cs ++ [ptr p])))
        by apply lookup_insert_eq.
      split; [done|]. rewrite decide_True by done.
      rewrite !insert_insert_eq. by simplify_eq.
    - eexists _, _. split; [done|]. unfold Remove.
      rewrite lookup_insert_ne, lookup_insert_eq by done. simpl. rewrite Hrem.
      rewrite (relink_Some _ _ _ _ _ (set_parent_ (ptr p) cc))
        by apply lookup_insert_eq.
      split; [done|]. rewrite decide_False by done.
      apply map_eq. intros i.
      destruct (decide (i = c)) as [->|Hic].
      + rewrite !lookup_insert_eq. f_equal. by destruct cc.
      + rewrite !(lookup_insert_ne _ c) by done.
        destruct (decide (i = p)) as [->|Hip].
        * by rewrite lookup_insert_eq.
        * by rewrite !lookup_insert_ne. }
  exists h', (<[c := set_parent_ nullptr cc]> h).
  split; [done|]. split; [done|]. split; [done|]. split.
  { destruct (decide (c = p)) as [->|Hne].
    - rewrite lookup_insert_eq. by simplify_eq.
    - by rewrite lookup_insert_ne. }
  intros fuel y. apply Operation_agree. intros z _.
  destruct (decide (z = c)) as [->|Hne].
  - rewrite lookup_insert_eq, Hc. simpl. by rewrite shape_set_parent_.
  - by rewrite lookup_insert_ne.
Qed.

Lemma Add_then_Remove_witness :
  main_heap !! 1 = Some (Composite indeterminate [ptr 2; ptr 6]) ∧
  main_heap !! 5 = Some (Leaf (ptr 6)) ∧
  ∃ h' h'',
    Add 1 (ptr 5) main_heap = Some h' ∧
    Remove 1 (ptr 5) h' = Some h'' ∧
    h'' = <[5 := set_parent_ nullptr (Leaf (ptr 6))]> main_heap ∧
    h'' !! 1 = Some (if decide (5 = 1) then Composite nullptr [ptr 2; ptr 6]
                     else Composite indeterminate [ptr 2; ptr 6]) ∧
    (∀ fuel y, Operation fuel h'' y = Operation fuel main_heap y).
Proof.
  split; [reflexivity|]. split; [reflexivity|].
  apply (Add_then_Remove main_heap 1 indeterminate [ptr 2; ptr 6] 5
           (Leaf (ptr 6))).
  - reflexivity.
  - intros Hin. apply elem_of_cons in Hin as [[=]|Hin].
    apply elem_of_cons in Hin as [[=]|Hin]. by apply elem_of_nil in Hin.
  - reflexivity.
Defined.

Lemma string_app_nil_r (s : string) : s +:+ "" = s.
Proof.
  induction s as [|a s IH]; [done|].
  change (String a (s +:+ "") = String a s). by rewrite IH.
Qed.

Lemma concat_empty_cons (s : string) ss :
  String.concat "" (s :: ss) = s +:+ String.concat "" ss.
Proof. destruct ss; simpl; [by rewrite string_app_nil_r|done]. Qed.

(** The loop in closed form: what it adds to [result] is, entry by entry,
    the description of the entry and, unless the entry is the same
    pointer as the last one of [cs], the separator. *)
Lemma Operation_for_pieces (call : loc → option string) cs todo :
  ∀ ss result,
    Forall2 (λ c s, ∃ x, c = ptr x ∧ call x = Some s) todo ss →
    Operation_for call cs result todo =
      Some (result +:+
            String.concat ""
              (zip_with (λ c s, if decide (Some c = back cs) then s
                                else s +:+ "+") todo ss)).
Proof.
  induction todo as [|c todo IH]; intros ss result Hall.
  - apply Forall2_nil_inv_l in Hall as ->. simpl.
    by rewrite string_app_nil_r.
  - apply Forall2_cons_inv_l in Hall as (s & ss' & (x & -> & Hx) & Hall & ->).
    cbn [Operation_for target mbind option_bind zip_with]. rewrite Hx.
    cbn [mbind option_bind]. rewrite (IH ss' _ Hall).
    rewrite concat_empty_cons. unfold Operation_append.
    case_decide; by rewrite !string_app_assoc.
Qed.

(** X6.  The description of a composite, whatever its child sequence: the
    branch delimiter around the descriptions of the children in their
    order, each followed by ["+"] exactly when the child is not the same
    object as the last child.  So the last entry is never followed by a
    separator, and neither is an earlier entry that repeats it. *)
Theorem Operation_in_pieces (h : heap) fuel this p cs ss :
  h !! this = Some (Composite p cs) →
  Forall2 (λ c s, ∃ x, c = ptr x ∧ Operation fuel h x = Some s) cs ss →
  Operation (S fuel) h this =
    Some (("Branch(" +:+
           String.concat ""
             (zip_with (λ c s, if decide (Some c = last cs) then s
                               else s +:+ "+") cs ss))
          +:+ ")").
Proof.
  intros Hthis Hall. rewrite Operation_S, Hthis.
  by rewrite (Operation_for_pieces _ cs cs ss "" Hall).
Qed.

Lemma Operation_in_pieces_witness :
  twice_heap !! 0 = Some (Composite indeterminate [ptr 1; ptr 1]) ∧
  Operation 1 twice_heap 1 = Some "Leaf" ∧
  Operation 2 twice_heap 0 =
    Some (("Branch(" +:+
           String.concat ""
             (zip_with (λ c s, if decide (Some c = last [ptr 1; ptr 1]) then s
                               else s +:+ "+")
                       [ptr 1; ptr 1] ["Leaf"; "Leaf"]))
          +:+ ")").
Proof.
  split; [reflexivity|]. split; [reflexivity|].
  apply (Operation_in_pieces twice_heap 1 0 indeterminate [ptr 1; ptr 1]
           ["Leaf"; "Leaf"]).
  - reflexivity.
  - constructor; [by exists 1|]. constructor; [by exists 1|]. constructor.
Defined.

(** X7.  [ClientCode2] on a leaf leaves the store as it is and writes the
    description of the leaf, whatever the second argument; on a composite
    that does not hold the second component yet, and to which the
    component does not lead, it adds the component and writes the
    description with that of the component appended. *)
Theorem ClientCode2_result (h : heap) l1 fuel out :
  (∀ pl component2,
     h !! l1 = Some (Leaf pl) →
     ClientCode2 (ptr l1) component2 (S fuel) h out =
       Some (h, (out +:+ "RESULT: ") +:+ "Leaf")) ∧
  (∀ pp cs l2 ss s,
     h !! l1 = Some (Composite pp cs) →
     ptr l2 ∉ cs →
     ¬ rtc (holds h) l2 l1 →
     Forall2 (λ q s, ∃ x, q = ptr x ∧ Operation fuel h x = Some s) cs ss →
     Operation fuel h l2 = Some s →
     ∃ h',
       Add l1 (ptr l2) h = Some h' ∧
       ClientCode2 (ptr l1) (ptr l2) (S fuel) h out =
         Some (h', (out +:+ "RESULT: ") +:+
                   (("Branch(" +:+ String.concat "+" (ss ++ [s])) +:+ ")"))).
Proof.
  split.
  - intros pl component2 Hl1. unfold ClientCode2, IsComposite. simpl.
    rewrite Hl1. simpl. by rewrite Hl1.
  - intros pp cs l2 ss s Hl1 Hnotin Hl2 Hall Hs.
    destruct (Operation_live _ _ _ _ Hs) as [cc Hcc].
    destruct (Add l1 (ptr l2) h) as [h'|] eqn:Hadd.
    2:{ unfold Add in Hadd. rewrite Hl1 in Hadd. simpl in Hadd.
        by rewrite (relink_Some _ _ _ _ _ cc) in Hadd. }
    exists h'. split; [done|].
    destruct (Operation_after_Add h h' l1 pp cs l2 fuel ss s
                Hl1 Hnotin Hl2 Hall Hs Hadd) as [Hdesc _].
    unfold ClientCode2, IsComposite.
    cbn [target mbind option_bind]. rewrite Hl1.
    cbn [mbind option_bind]. rewrite Hadd.
    cbn [mbind option_bind]. by rewrite Hdesc.
Qed.

Lemma ClientCode2_result_witness :
  main_heap !! 0 = Some (Leaf indeterminate) ∧
  main_heap !! 1 = Some (Composite indeterminate [ptr 2; ptr 6]) ∧
  ClientCode2 (ptr 0) nullptr 3 main_heap "" =
    Some (main_heap, ("" +:+ "RESULT: ") +:+ "Leaf") ∧
  ∃ h',
    Add 1 (ptr 0) main_heap = Some h' ∧
    ClientCode2 (ptr 1) (ptr 0) 3 main_heap "" =
      Some (h', ("" +:+ "RESULT: ") +:+
                (("Branch(" +:+
                  String.concat "+"
                    (["Branch(Leaf+Leaf)"; "Branch(Leaf)"] ++ ["Leaf"]))
                 +:+ ")")).
Proof.
  split; [reflexivity|]. split; [reflexivity|]. split.
  - apply (proj1 (ClientCode2_result main_heap 0 2 "") indeterminate nullptr).
    reflexivity.
  - apply (proj2 (ClientCode2_result main_heap 1 2 "")
             indeterminate [ptr 2; ptr 6] 0
             ["Branch(Leaf+Leaf)"; "Branch(Leaf)"] "Leaf").
    + reflexivity.
    + intros Hin. apply elem_of_cons in Hin as [[=]|Hin].
      apply elem_of_cons in Hin as [[=]|Hin]. by apply elem_of_nil in Hin.
    + apply main_heap_below_tree. simpl. lia.
    + exact main_heap_branches_described.
    + reflexivity.
Defined.

(** [main] runs without touching anything that is not an object, deletes
    every object it has created, and writes this text. *)
Lemma main_runs :
  main 3 =
    Some (∅,
      ("Client: I've got a simple component:" +:+ nl) +:+
      ("RESULT: Leaf" +:+ nl +:+ nl) +:+
      ("Client: Now I've got a composite tree:" +:+ nl) +:+
      ("RESULT: Branch(Branch(Leaf+Leaf)+Branch(Leaf))" +:+ nl +:+ nl) +:+
      ("Client: I don't need to check the components classes even when managing the tree:" +:+ nl) +:+
      ("RESULT: Branch(Branch(Leaf+Leaf)+Branch(Leaf)+Leaf)" +:+ nl)).
Proof. vm_compute. reflexivity. Qed.

(** ** Destruction and cycles *)

Lemma Operation_no_object (h : heap) fuel x :
  h !! x = None → Operation fuel h x = None.
Proof. intros Hx. destruct fuel; [done|]. by rewrite Operation_S, Hx. Qed.

(** X8.  The destructor of a node takes it out of no child sequence.
    Deleting a node that a composite still holds leaves every other
    object as it was, the entry included, and from then on [Operation] on
    that composite has no defined result. *)
Theorem delete_of_held_node (h : heap) q pp cs x :
  h !! q = Some (Composite pp cs) →
  ptr x ∈ cs →
  x ≠ q →
  is_Some (h !! x) →
  ∃ h',
    op_delete (ptr x) h = Some h' ∧
    h' !! x = None ∧
    (∀ y, y ≠ x → h' !! y = h !! y) ∧
    holds h' q x ∧
    (∀ fuel, Operation fuel h' q = None).
Proof.
  intros Hq Hin Hne [cx Hx]. unfold op_delete. rewrite Hx.
  exists (delete x h). split; [done|].
  split; [apply lookup_delete_eq|].
  split; [intros y Hy; by apply lookup_delete_ne|].
  assert (delete x h !! q = Some (Composite pp cs)) as Hq'
    by (by rewrite lookup_delete_ne).
  split; [by exists (Composite pp cs)|].
  intros [|fuel]; [done|]. rewrite Operation_S, Hq'.
  rewrite (Operation_for_None _ cs cs (ptr x)); [done|done|].
  intros x' [= <-]. apply Operation_no_object, lookup_delete_eq.
Qed.

Lemma delete_of_held_node_witness :
  main_heap !! 2 = Some (Composite (ptr 1) [ptr 3; ptr 4]) ∧
  main_heap !! 4 = Some (Leaf (ptr 2)) ∧
  ∃ h',
    op_delete (ptr 4) main_heap = Some h' ∧
    h' !! 4 = None ∧
    (∀ y, y ≠ 4 → h' !! y = main_heap !! y) ∧
    holds h' 2 4 ∧
    (∀ fuel, Operation fuel h' 2 = None).
Proof.
  split; [reflexivity|]. split; [reflexivity|].
  apply (delete_of_held_node main_heap 2 (ptr 1) [ptr 3; ptr 4] 4).
  - reflexivity.
  - apply list_elem_of_further, list_elem_of_here.
  - lia.
  - exists (Leaf (ptr 2)). reflexivity.
Defined.

(** X9.  The order the comment on [Remove] asks for: a node that no other
    object holds is first removed from its composite and then deleted.
    Both steps are defined, nothing holds the node afterwards, and a
    closed store stays closed: no child sequence is left with an entry
    that is not an object. *)
Theorem Remove_then_delete (h : heap) p pp cs c :
  closed h →
  h !! p = Some (Composite pp cs) →
  is_Some (h !! c) →
  free_elsewhere h p (ptr c) →
  ∃ h1 h2,
    Remove p (ptr c) h = Some h1 ∧
    op_delete (ptr c) h1 = Some h2 ∧
    (∀ q, ¬ holds h2 q c) ∧
    closed h2.
Proof.
  intros Hclosed Hp [cc Hc] Hfree.
  destruct (Remove p (ptr c) h) as [h1|] eqn:Hrem.
  2:{ unfold Remove in Hrem. rewrite Hp in Hrem. simpl in Hrem.
      by rewrite (relink_Some _ _ _ _ _ cc) in Hrem. }
  destruct (Remove_effect _ _ _ _ _ _ Hp Hrem) as (x & [= <-] & _ & Hch & Hpa).
  assert (is_Some (h1 !! c)) as [cc1 Hc1].
  { rewrite <- (fmap_is_Some parent_), Hpa, decide_True by done. by eexists. }
  exists h1, (delete c h1). split; [done|].
  split; [unfold op_delete; by rewrite Hc1|].
  assert (∀ q cq z, delete c h1 !! q = Some cq → z ∈ children_ cq →
            z ≠ ptr c ∧ ∃ c0, h !! q = Some c0 ∧ z ∈ children_ c0) as Hkept.
  { intros q cq z [Hqc Hq]%lookup_delete_Some Hz.
    pose proof (Hch q) as Hchq. rewrite Hq in Hchq. simpl in Hchq.
    destruct (decide (q = p)) as [->|Hqp].
    - injection Hchq as Hchq. rewrite Hchq in Hz.
      apply list_elem_of_filter in Hz as [Hne Hz]. split; [done|].
      exists (Composite pp cs). by split.
    - symmetry in Hchq. apply fmap_Some in Hchq as (c0 & Hc0 & Hcs0).
      rewrite Hcs0 in Hz. split; [|by exists c0].
      intros ->. by apply (Hfree q c0 Hc0 Hqp). }
  split.
  - intros q (cq & Hq & Hin). by destruct (Hkept q cq (ptr c) Hq Hin).
  - intros q cq z Hq Hz.
    destruct (Hkept q cq z Hq Hz) as (Hne & c0 & Hc0 & Hz0).
    destruct (Hclosed q c0 z Hc0 Hz0) as (y & -> & Hy).
    exists y. split; [done|].
    rewrite lookup_delete_ne by congruence.
    rewrite <- (fmap_is_Some parent_), Hpa, decide_False by congruence.
    by rewrite fmap_is_Some.
Qed.

Lemma Remove_then_delete_witness :
  closed main_heap ∧
  main_heap !! 2 = Some (Composite (ptr 1) [ptr 3; ptr 4]) ∧
  main_heap !! 4 = Some (Leaf (ptr 2)) ∧
  free_elsewhere main_heap 2 (ptr 4) ∧
  ∃ h1 h2,
    Remove 2 (ptr 4) main_heap = Some h1 ∧
    op_delete (ptr 4) h1 = Some h2 ∧
    (∀ q, ¬ holds h2 q 4) ∧
    closed h2.
Proof.
  assert (closed main_heap) as Hclosed
    by exact (run_empty_closed main_calls main_heap run_main_calls).
  assert (free_elsewhere main_heap 2 (ptr 4)) as Hfree
    by (apply (bool_decide_unpack _); vm_compute; exact I).
  split; [exact Hclosed|]. split; [reflexivity|]. split; [reflexivity|].
  split; [exact Hfree|].
  apply (Remove_then_delete main_heap 2 (ptr 1) [ptr 3; ptr 4] 4 Hclosed).
  - reflexivity.
  - exists (Leaf (ptr 2)). reflexivity.
  - exact Hfree.
Defined.

(** X10.  Nothing stops a client from linking a node below itself, and
    then [Operation] has no result on the nodes concerned: if [x] is its
    own descendant, then on [x] and on every node that leads to [x] no
    amount of fuel lets [Operation] return, and [ClientCode] on such a
    node never gets to write the description. *)
Theorem Operation_undefined_on_cycle (h : heap) x y :
  descendant h x x →
  rtc (holds h) y x →
  ∀ fuel, Operation fuel h y = None ∧
          ∀ out, ClientCode (ptr y) fuel h out = None.
Proof.
  intros Hcyc Hyx fuel.
  assert (Operation fuel h y = None) as Hnone
    by (by apply (Operation_None_towards_cycle h x)).
  split; [done|]. intros out. unfold ClientCode. simpl. by rewrite Hnone.
Qed.

Lemma Operation_undefined_on_cycle_witness :
  run self_calls ∅ = Some self_heap ∧
  descendant self_heap 0 0 ∧
  ∀ fuel, Operation fuel self_heap 0 = None ∧
          ∀ out, ClientCode (ptr 0) fuel self_heap out = None.
Proof.
  assert (descendant self_heap 0 0) as Hcyc.
  { apply tc_once. exists (Composite (ptr 0) [ptr 0]).
    split; [reflexivity|]. apply list_elem_of_here. }
  split; [exact run_self_calls|]. split; [exact Hcyc|].
  apply (Operation_undefined_on_cycle self_heap 0 0 Hcyc). apply rtc_refl.
Defined.
